(** * koatty_schedule: the Redis lock engine and the lock-guarded executor

    A shallow embedding of [src/locker.ts] (class [Locker]) and of the
    [SchedulerLock] decorator of the scheduler entry file, followed by the
    properties of acquire / wait-acquire / release and of guarded execution.

    The collaborators that live outside the repository are modelled as an
    explicit world: the Redis key space with millisecond expiry, the ioredis
    client objects handed out by [koatty_store], the logger, the wall clock
    and the timer.  Whatever those collaborators decide on their own (network
    failures, latencies, the bytes drawn from the CSPRNG, which client object
    a connection request returns) is an [Env], over which every theorem
    quantifies. *)

From Stdlib Require Import ZArith Lia Ascii Strings.Byte.
From stdpp Require Import base strings list gmap fin_maps.

Set Default Proof Using "Type".

(** ** JavaScript outcomes: a state and exception monad *)

Module Js.

(** A thrown value: an [Error] object with its constructor name and message. *)
Record Err := mkErr { err_name : string; err_message : string }.

Definition Error (msg : string) : Err := mkErr "Error" msg.
Definition TypeError (msg : string) : Err := mkErr "TypeError" msg.
Definition ReplyError (msg : string) : Err := mkErr "ReplyError" msg.

(** What an (async) function call settles to: a value, or a thrown error
    (a rejected promise). *)
Inductive Outcome (A : Type) : Type :=
| Return (a : A)
| Raise (e : Err).
Arguments Return {A} a.
Arguments Raise {A} e.

(** Mutations made before a throw stay: the state is returned either way. *)
Definition M (S A : Type) : Type := S -> Outcome A * S.

Definition ret {S A} (a : A) : M S A := fun s => (Return a, s).

Definition throw {S A} (e : Err) : M S A := fun s => (Raise e, s).

Definition bind {S A B} (m : M S A) (k : A -> M S B) : M S B :=
  fun s => match m s with
           | (Return a, s') => k a s'
           | (Raise e, s') => (Raise e, s')
           end.

(** [try { body } catch (e) { handler e }] *)
Definition try_catch {S A} (body : M S A) (handler : Err -> M S A) : M S A :=
  fun s => match body s with
           | (Return a, s') => (Return a, s')
           | (Raise e, s') => handler e s'
           end.

(** [try { body } finally { fin }]: the completion of [body] is kept unless
    [fin] itself throws. *)
Definition try_finally {S A} (body : M S A) (fin : M S unit) : M S A :=
  fun s => match body s with
           | (r, s1) => match fin s1 with
                        | (Return _, s2) => (r, s2)
                        | (Raise e, s2) => (Raise e, s2)
                        end
           end.

Definition modify {S} (f : S -> S) : M S unit := fun s => (Return tt, f s).

Definition gets {S A} (f : S -> A) : M S A := fun s => (Return (f s), s).

Declare Scope js_scope.
Delimit Scope js_scope with js.
Notation "'let!' x ':=' c 'in' k" := (bind c (fun x => k))
  (at level 10, x pattern, c at level 100, k at level 200) : js_scope.
Notation "c1 '>>' c2" := (bind c1 (fun _ => c2))
  (at level 65, right associativity) : js_scope.

(** The koatty logger: level and what was passed to it. *)
Inductive Level := LInfo | LWarn | LError.
Inductive LogArg := LogStr (s : string) | LogErr (e : Err).
Definition LogEntry : Type := Level * LogArg.

(** JavaScript truthiness of an optional number ([undefined] or a number). *)
Definition truthy (n : option Z) : bool :=
  match n with
  | Some z => negb (z =? 0)%Z
  | None => false
  end.

End Js.
Import Js.

(** ** [Buffer.toString('hex')] *)

Module Hex.

Definition digit (n : N) : ascii :=
  match n with
  | 0 => "0" | 1 => "1" | 2 => "2" | 3 => "3" | 4 => "4" | 5 => "5"
  | 6 => "6" | 7 => "7" | 8 => "8" | 9 => "9" | 10 => "a" | 11 => "b"
  | 12 => "c" | 13 => "d" | 14 => "e" | _ => "f"
  end%N%char.

Definition undigit (c : ascii) : option N :=
  let n := N_of_ascii c in
  if ((48 <=? n) && (n <=? 57))%N then Some (n - 48)%N
  else if ((97 <=? n) && (n <=? 102))%N then Some (n - 87)%N
  else None.

Fixpoint toString (bytes : list byte) : string :=
  match bytes with
  | [] => EmptyString
  | b :: rest =>
      String (digit (Byte.to_N b / 16)) (String (digit (Byte.to_N b mod 16)) (toString rest))
  end.

Fixpoint parse (s : string) : option (list byte) :=
  match s with
  | EmptyString => Some []
  | String hi (String lo rest) =>
      match undigit hi, undigit lo, parse rest with
      | Some h, Some l, Some bs =>
          match Byte.of_N (16 * h + l) with
          | Some b => Some (b :: bs)
          | None => None
          end
      | _, _, _ => None
      end
  | String _ EmptyString => None
  end.

End Hex.

(** ** The Redis key space *)

Module Redis.

(** A string key holding [rec_value] until the clock reaches [rec_deadline]. *)
Record LockRecord := mkRecord { rec_value : string; rec_deadline : Z }.

(** [GET key] at server time [t]: an expired record is not there. *)
Definition get (t : Z) (db : gmap string LockRecord) (key : string) : option string :=
  match db !! key with
  | Some r => if (t <? rec_deadline r)%Z then Some (rec_value r) else None
  | None => None
  end.

(** [SET key value NX PX px] at server time [t]: [Some "OK"], or [None]
    (the null reply) when the key is there. *)
Definition set_nx_px (t : Z) (db : gmap string LockRecord) (key value : string) (px : Z)
  : option string * gmap string LockRecord :=
  match get t db key with
  | Some _ => (None, db)
  | None => (Some "OK", <[key := mkRecord value (t + px)]> db)
  end.

(** [DEL key]: the number of keys removed. *)
Definition del (t : Z) (db : gmap string LockRecord) (key : string)
  : Z * gmap string LockRecord :=
  match get t db key with
  | Some _ => (1%Z, delete key db)
  | None => (0%Z, delete key db)
  end.

(** The script registered as [lua_unlock] (locker.ts, 72-82); Redis runs a
    script as one indivisible step:
<<
    local remote_value = redis.call("get",KEYS[1])
    if (not remote_value) then return 0
    elseif (remote_value == ARGV[1]) then return redis.call("del",KEYS[1])
    else return -1 end
>> *)
Definition lua_unlock_script (t : Z) (db : gmap string LockRecord) (key arg : string)
  : Z * gmap string LockRecord :=
  match get t db key with
  | None => (0%Z, db)
  | Some remote_value =>
      if String.eqb remote_value arg then del t db key else ((-1)%Z, db)
  end.

End Redis.

(** ** The world outside the [Locker] object *)

(** An ioredis client object: its connection [status] and whether a command
    named [lua_unlock] has been defined on it. *)
Record Client := mkClient { status : string; lua_unlock : bool }.

(** Everything the process asks of its collaborators, in order. *)
Inductive Event :=
| EvGetConnection
| EvDefineCommand (cid : nat) (name : string)
| EvSet (key value : string) (px : Z)
| EvLuaUnlock (key value : string)
| EvDelay (ms : Z).

Global Instance Event_eq_dec : EqDecision Event.
Proof. solve_decision. Defined.

Record World := mkWorld {
  clock : Z;                               (* Date.now(), in ms *)
  redis : gmap string Redis.LockRecord;    (* the shared key space *)
  clients : gmap nat Client;               (* client objects, by identity *)
  trace : list Event;                      (* requests made so far *)
  log : list LogEntry;                     (* what the logger received *)
  drawn : nat                              (* CSPRNG bytes consumed *)
}.

(** What [redisStore.getConnection()] does: throw, yield nothing, or hand out
    the client object [cid], whose status is then [st]. *)
Inductive ConnReply :=
| ConnThrow (e : Err)
| ConnNull
| ConnClient (cid : nat) (st : string).

(** The choices of the collaborators; the [n]-th request is answered by the
    functions at index [n]. *)
Record Env := mkEnv {
  getConnection : nat -> ConnReply;   (* koatty_store *)
  transport : nat -> option Err;      (* a command fails on the wire *)
  latency : nat -> nat;               (* ms a request takes *)
  csprng : nat -> byte                (* the stream behind crypto.randomBytes *)
}.

Definition with_clock (t : Z) (w : World) : World :=
  mkWorld t (redis w) (clients w) (trace w) (log w) (drawn w).
Definition with_redis (db : gmap string Redis.LockRecord) (w : World) : World :=
  mkWorld (clock w) db (clients w) (trace w) (log w) (drawn w).
Definition with_clients (cs : gmap nat Client) (w : World) : World :=
  mkWorld (clock w) (redis w) cs (trace w) (log w) (drawn w).
Definition with_trace (tr : list Event) (w : World) : World :=
  mkWorld (clock w) (redis w) (clients w) tr (log w) (drawn w).
Definition with_log (l : list LogEntry) (w : World) : World :=
  mkWorld (clock w) (redis w) (clients w) (trace w) l (drawn w).
Definition with_drawn (n : nat) (w : World) : World :=
  mkWorld (clock w) (redis w) (clients w) (trace w) (log w) n.

(** One request to a collaborator: it is recorded and takes [latency] ms
    (the clock never goes back). *)
Definition request (env : Env) (ev : Event) (w : World) : World :=
  with_clock (clock w + Z.of_nat (latency env (length (trace w))))
             (with_trace (trace w ++ [ev]) w).

Definition log_write (lvl : Level) (a : LogArg) (w : World) : World :=
  with_log (log w ++ [(lvl, a)]) w.

(** [setTimeout] of Node.js: a delay below 1 or above 2^31-1 is set to 1. *)
Definition timer_ms (ms : Z) : Z :=
  if ((ms <? 1) || (2147483647 <? ms))%Z then 1%Z else ms.

(** ** class Locker (locker.ts) *)

Module Locker.

(** The part of the [RedisStore] options that the locker reads itself. *)
Record Options := mkOptions { key_prefix : string }.

(** A value of [lockMap]: [{ value, expire, time }]. *)
Record Entry := mkEntry { value : string; expire : Z; time : Z }.

Record t := mkLocker {
  lockMap : gmap string Entry;
  options : Options;
  client : option nat          (* null, or a reference to a client object *)
}.

(** [new Locker(options)] *)
Definition new (opts : Options) : t := mkLocker ∅ opts None.

Definition with_lockMap (m : gmap string Entry) (this : t) : t :=
  mkLocker m (options this) (client this).
Definition with_client (c : option nat) (this : t) : t :=
  mkLocker (lockMap this) (options this) c.

(** [static getInstance(options, force = false)] (locker.ts 38-43), on the
    static field [instance]: the object returned is the one the field holds
    afterwards. *)
Definition getInstance (instance : option t) (opts : Options) (force : option bool)
  : t * option t :=
  let instance :=
    match instance with
    | Some this => if default false force then Some (new opts) else Some this
    | None => Some (new opts)
    end in
  (default (new opts) instance, instance).

(** A method runs on the object and the world around it. *)
Definition St : Type := t * World.

Definition on_world (f : World -> World) : M St unit :=
  modify (fun s : St => (s.1, f s.2)).
Definition on_this (f : t -> t) : M St unit :=
  modify (fun s : St => (f s.1, s.2)).

Definition logger_Error (a : LogArg) : M St unit := on_world (log_write LError a).

Definition Date_now : M St Z := gets (fun s : St => clock s.2).

Definition has_lua_unlock (cid : nat) (w : World) : bool :=
  match clients w !! cid with
  | Some c => lua_unlock c
  | None => false
  end.

(** [this.client && this.client.status === 'ready'] *)
Definition client_ready : M St bool :=
  gets (fun s : St =>
          match client s.1 with
          | Some cid =>
              match clients s.2 !! cid with
              | Some c => String.eqb (status c) "ready"
              | None => false
              end
          | None => false
          end).

(** ioredis [client.defineCommand('lua_unlock', ...)]: a local call that
    defines the method [lua_unlock] on the client object. *)
Definition client_defineCommand (cid : nat) : M St unit :=
  on_world (fun w =>
    with_trace (trace w ++ [EvDefineCommand cid "lua_unlock"])
      (with_clients (alter (fun c => mkClient (status c) true) cid (clients w)) w)).

(** [delay(ms)]: the timer fires after [ms] (as Node.js reads it), and the
    promise resolves [latency] later. *)
Definition delay (env : Env) (ms : option Z) : M St unit :=
  let ms := default 1000%Z ms in
  on_world (fun w =>
    let w' := request env (EvDelay ms) w in
    with_clock (clock w' + timer_ms ms)%Z w').

Section Methods.
Variable env : Env.

(** The client object [cid] is handed out with status [st]; a method
    defined on it earlier is still there. *)
Definition hand_out (cid : nat) (st : string) (w : World) : World :=
  with_clients (<[cid := mkClient st (has_lua_unlock cid w)]> (clients w)) w.

(** [await Store.getInstance(this.options).getConnection()] *)
Definition Store_getConnection : M St (option nat) :=
  fun s =>
    let w := request env EvGetConnection s.2 in
    match getConnection env (length (trace s.2)) with
    | ConnThrow e => (Raise e, (s.1, w))
    | ConnNull => (Return None, (s.1, w))
    | ConnClient cid st => (Return (Some cid), (s.1, hand_out cid st w))
    end.

(** locker.ts 63-90 *)
Definition defineCommand : M St (option nat) :=
  (try_catch
     (let! ready := client_ready in
      (if ready then ret tt
       else
         let! c := Store_getConnection in
         on_this (with_client c) >>
         match c with
         | Some cid =>
             let! defined := gets (fun s : St => has_lua_unlock cid s.2) in
             if defined then ret tt else client_defineCommand cid
         | None => ret tt
         end) >>
      gets (fun s : St => client s.1))
     (fun e =>
        logger_Error
          (LogStr ("Redis connection failed. at ScheduleLocker.InitRedisConn. "
                   +:+ err_message e)) >>
        ret None))%js.

(** [crypto.randomBytes(n)]: the next [n] bytes of the stream. *)
Definition crypto_randomBytes (n : nat) : M St (list byte) :=
  fun s =>
    (Return (map (csprng env) (seq (drawn s.2) n)),
     (s.1, with_drawn (drawn s.2 + n) s.2)).

(** [await client.set(key, value, 'NX', 'PX', px)] *)
Definition client_set (c : option nat) (key val : string) (px : Z)
  : M St (option string) :=
  match c with
  | None => throw (TypeError "Cannot read properties of null (reading 'set')")
  | Some _ =>
      fun s =>
        let w := request env (EvSet key val px) s.2 in
        match transport env (length (trace s.2)) with
        | Some e => (Raise e, (s.1, w))
        | None =>
            if (px <=? 0)%Z
            then (Raise (ReplyError "ERR invalid expire time in 'set' command"), (s.1, w))
            else
              let (reply, db) := Redis.set_nx_px (clock w) (redis w) key val px in
              (Return reply, (s.1, with_redis db w))
        end
  end.

(** [await client.lua_unlock(key, value)] *)
Definition client_lua_unlock (c : option nat) (key val : string) : M St Z :=
  match c with
  | None => throw (TypeError "Cannot read properties of null (reading 'lua_unlock')")
  | Some cid =>
      fun s =>
        if has_lua_unlock cid s.2 then
          let w := request env (EvLuaUnlock key val) s.2 in
          match transport env (length (trace s.2)) with
          | Some e => (Raise e, (s.1, w))
          | None =>
              let (reply, db) := Redis.lua_unlock_script (clock w) (redis w) key val in
              (Return reply, (s.1, with_redis db w))
          end
        else (Raise (TypeError "client.lua_unlock is not a function"), s)
  end.

Definition prefixed (key : string) : M St string :=
  gets (fun s : St => key_prefix (options s.1) +:+ key).

(** locker.ts 100-117 *)
Definition lock (key : string) (expire : option Z) : M St bool :=
  let expire := default 10000%Z expire in
  (try_catch
     (let! client := defineCommand in
      let! key := prefixed key in
      let! bytes := crypto_randomBytes 16 in
      let value := Hex.toString bytes in
      let! result := client_set client key value expire in
      match result with
      | None =>
          logger_Error (LogStr "lock error: key already exists") >>
          ret false
      | Some _ =>
          let! now := Date_now in
          on_this (fun this =>
            with_lockMap (<[key := mkEntry value expire now]> (lockMap this)) this) >>
          ret true
      end)
     (fun e => logger_Error (LogErr e) >> ret false))%js.

(** One turn of the loop of [waitLock]:
    [await this.lock(key, expire).catch(err => { logger.Error(...) })],
    whose value is [undefined] after a rejection. *)
Definition attempt (key : string) (expire : option Z) : M St (option bool) :=
  (try_catch
     (let! result := lock key expire in ret (Some result))
     (fun err => logger_Error (LogStr (err_message err)) >> ret None))%js.

(** The [while] loop of [waitLock]; [None] when [fuel] turns do not reach
    its end. *)
Fixpoint waitLock_loop (fuel : nat) (key : string) (expire : option Z)
         (interval waitTime start_time : Z) (s : St) : option (Outcome bool * St) :=
  match fuel with
  | O => None
  | S fuel' =>
      if (clock s.2 - start_time <? waitTime)%Z then
        match attempt key expire s with
        | (Return (Some true), s1) => Some (Return true, s1)
        | (Return _, s1) =>
            match delay env (Some interval) s1 with
            | (Return _, s2) =>
                waitLock_loop fuel' key expire interval waitTime start_time s2
            | (Raise e, s2) => Some (Raise e, s2)
            end
        | (Raise e, s1) => Some (Raise e, s1)
        end
      else
        Some ((logger_Error (LogStr "waitLock timeout") >> ret false)%js s)
  end.

(** locker.ts 130-150 *)
Definition waitLock_fuel (fuel : nat) (key : string) (expire interval waitTime : option Z)
           (s : St) : option (Outcome bool * St) :=
  let interval := default 50%Z interval in
  let waitTime := default 15000%Z waitTime in
  let start_time := clock s.2 in
  match waitLock_loop fuel key expire interval waitTime start_time s with
  | Some (Raise e, s') => Some ((logger_Error (LogErr e) >> ret false)%js s')
  | r => r
  end.

(** Every turn that does not end the loop takes at least 1 ms, so this
    many turns are enough (theorem [waitLock_fuel_enough]). *)
Definition waitLock_turns (waitTime : option Z) : nat :=
  S (Z.to_nat (default 15000%Z waitTime)).

Definition waitLock (key : string) (expire interval waitTime : option Z) : M St bool :=
  fun s =>
    match waitLock_fuel (waitLock_turns waitTime) key expire interval waitTime s with
    | Some r => r
    | None => (Return false, s)
    end.

(** locker.ts 170-185; the value returned is [null], [true] or [false].
    [lockMap.has(key)] and the [lockMap.get(key)] that follows it are one
    lookup. *)
Definition unLock (key : string) : M St (option bool) :=
  (try_catch
     (let! client := defineCommand in
      let! key := prefixed key in
      let! entry := gets (fun s : St => lockMap s.1 !! key) in
      match entry with
      | None => ret None
      | Some e =>
          let! _ := client_lua_unlock client key (value e) in
          on_this (fun this => with_lockMap (delete key (lockMap this)) this) >>
          ret (Some true)
      end)
     (fun e => logger_Error (LogErr e) >> ret (Some false)))%js.

End Methods.

End Locker.

(** ** The [SchedulerLock] decorator (scheduler entry file, 106-169) *)

Module Schedule.

(** [interface LockerInterface]: what the decorator calls on the shared
    locker.  [lock] and [waitLock] are called as they are; [unLock] is
    called behind [if (lockerCls.unLock)]. *)
Record LockerInterface (S : Type) := mkLockerInterface {
  lock : string -> option Z -> M S bool;
  waitLock : string -> option Z -> option Z -> option Z -> M S bool;
  unLock : option (string -> M S (option bool))
}.
Arguments mkLockerInterface {S} _ _ _.
Arguments lock {S} _ _ _.
Arguments waitLock {S} _ _ _ _ _.
Arguments unLock {S} _.

(** [const ScheduleLocker: ScheduleLockerInterface = { locker: null }] *)
Record ScheduleLockerInterface (S : Type) := mkScheduleLocker {
  locker : option (LockerInterface S)
}.
Arguments mkScheduleLocker {S} _.
Arguments locker {S} _.

Section Decorator.
Context {S V : Type}.
(** the logger, on the state of the process *)
Variable logger : Level -> LogArg -> S -> S.
(** the arguments of the decorator, [name] already resolved *)
Variables (name : string) (lockTimeOut waitLockInterval waitLockTimeOut : option Z).
(** the decorated method: its name and [value.apply(this, props)] *)
Variable methodName : string.
Variable value : M S V.

Definition not_executed : string :=
  "Cache lock '" +:+ name +:+ "' acquisition failed. The method "
  +:+ methodName +:+ " is not executed.".

Definition executed : string := "The locker '" +:+ name +:+ "' executed.".

Definition log_error_false (er : Err) : M S bool :=
  (modify (logger LError (LogErr er)) >> ret false)%js.

(** lines 128-142: how the lock is asked for *)
Definition acquire (lockerCls : LockerInterface S) : M S bool :=
  if truthy waitLockInterval || truthy waitLockTimeOut
  then try_catch
         (waitLock lockerCls name lockTimeOut waitLockInterval waitLockTimeOut)
         log_error_false
  else try_catch (lock lockerCls name lockTimeOut) log_error_false.

(** lines 152-156: the [finally] block *)
Definition release (lockerCls : LockerInterface S) : M S unit :=
  match unLock lockerCls with
  | Some unLock =>
      (try_catch (unLock name >> ret tt)
         (fun er => modify (logger LError (LogErr er))))%js
  | None => ret tt
  end.

(** lines 122-162: the method that replaces the decorated one; [None] is
    the [undefined] of the bare [return]. *)
Definition descriptor_value (ScheduleLocker : ScheduleLockerInterface S)
  : M S (option V) :=
  match locker ScheduleLocker with
  | None => throw (Error not_executed)
  | Some lockerCls =>
      (let! lockerFlag := acquire lockerCls in
       if lockerFlag then
         try_finally
           (try_catch
              (modify (logger LInfo (LogStr executed)) >>
               let! res := value in
               ret (Some res))
              (fun e => throw e))
           (release lockerCls)
       else
         modify (logger LWarn (LogStr not_executed)) >>
         ret None)%js
  end.

End Decorator.

(** lines 113-116: the name of the lock when the decorator is given none.
    [isEmpty] is [helper.isEmpty] of koatty_lib, [getIdentifier] the answer of
    [IOCContainer.getIdentifier(target)] and [constructor_name] the name of
    [target.constructor], when there is one. *)
Definition synthesized_name (getIdentifier : option string) (constructor_name : option string)
           (methodName : string) : string :=
  let identifier :=
    match getIdentifier with
    | Some (String c rest) => String c rest
    | _ => default EmptyString constructor_name
    end in
  identifier +:+ "_" +:+ methodName.

Definition lock_name (isEmpty : option string -> bool) (name : option string)
           (getIdentifier : option string) (constructor_name : option string)
           (methodName : string) : option string :=
  if isEmpty name
  then Some (synthesized_name getIdentifier constructor_name methodName)
  else name.

Section CronJob.
Context {S V : Type}.
Variable logger : Level -> LogArg -> S -> S.

Definition job_started (identifier method : string) : string :=
  "The schedule job " +:+ identifier +:+ "_" +:+ method +:+ " started.".

(** lines 212-219: what [execInjectSchedule] gives to [CronJob] to run at
    every tick; [instance_method] is [instance[method]()]. *)
Definition onTick (identifier method : string) (instance_method : M S V) : M S (option V) :=
  (modify (logger LInfo (LogStr (job_started identifier method))) >>
   try_catch
     (let! res := instance_method in ret (Some res))
     (fun e => modify (logger LError (LogErr e)) >> ret None))%js.

End CronJob.

(** *** Observing the decorator

    What the replaced method does to its collaborators, in order: the
    calls on the locker, the logger and the decorated method are run
    unchanged and written down next to the state. *)

Inductive Call :=
| CLock (key : string) (expire : option Z)
| CWaitLock (key : string) (expire interval waitTime : option Z)
| CUnLock (key : string)
| CValue
| CLog (lvl : Level) (a : LogArg).

Global Instance Level_eq_dec : EqDecision Level.
Proof. solve_decision. Defined.
Global Instance Err_eq_dec : EqDecision Err.
Proof. solve_decision. Defined.
Global Instance LogArg_eq_dec : EqDecision LogArg.
Proof. solve_decision. Defined.
Global Instance Call_eq_dec : EqDecision Call.
Proof. solve_decision. Defined.

Definition observed {S A} (c : Call) (m : M S A) : M (S * list Call) A :=
  fun sc => match m sc.1 with
            | (r, s') => (r, (s', sc.2 ++ [c]))
            end.

Definition observed_locker {S} (L : LockerInterface S) : LockerInterface (S * list Call) :=
  {| lock := fun key expire => observed (CLock key expire) (lock L key expire);
     waitLock := fun key expire interval waitTime =>
                   observed (CWaitLock key expire interval waitTime)
                            (waitLock L key expire interval waitTime);
     unLock := match unLock L with
               | Some u => Some (fun key => observed (CUnLock key) (u key))
               | None => None
               end |}.

Definition observed_logger {S} (logger : Level -> LogArg -> S -> S)
  : Level -> LogArg -> S * list Call -> S * list Call :=
  fun lvl a sc => (logger lvl a sc.1, sc.2 ++ [CLog lvl a]).

Definition observed_ScheduleLocker {S} (G : ScheduleLockerInterface S)
  : ScheduleLockerInterface (S * list Call) :=
  {| locker := match locker G with
               | Some L => Some (observed_locker L)
               | None => None
               end |}.

(** The replaced method, observed. *)
Definition run {S V} (logger : Level -> LogArg -> S -> S)
           (name : string) (lockTimeOut waitLockInterval waitLockTimeOut : option Z)
           (methodName : string) (value : M S V) (G : ScheduleLockerInterface S)
  : M (S * list Call) (option V) :=
  descriptor_value (observed_logger logger) name lockTimeOut waitLockInterval
                   waitLockTimeOut methodName (observed CValue value)
                   (observed_ScheduleLocker G).

(** A [Locker] as the shared locker: the methods of the class, on the
    locker object and the world. *)
Definition Locker_interface (env : Env) : LockerInterface Locker.St :=
  {| lock := Locker.lock env;
     waitLock := Locker.waitLock env;
     unLock := Some (Locker.unLock env) |}.

Definition Locker_logger : Level -> LogArg -> Locker.St -> Locker.St :=
  fun lvl a s => (s.1, log_write lvl a s.2).

End Schedule.

(** ** Vocabulary of the properties *)

(** The requests that act on a key of the store. *)
Definition is_key_command (ev : Event) : bool :=
  match ev with
  | EvSet _ _ _ | EvLuaUnlock _ _ => true
  | _ => false
  end.

Definition is_set (ev : Event) : bool :=
  match ev with
  | EvSet _ _ _ => true
  | _ => false
  end.

Definition is_connection (ev : Event) : bool :=
  match ev with
  | EvGetConnection => true
  | _ => false
  end.

(** How many times the release script was registered on client [cid]. *)
Definition registrations (cid : nat) (w : World) : nat :=
  count_occ Event_eq_dec (trace w) (EvDefineCommand cid "lua_unlock").

(** The states a process can be in: it starts with a new [Locker] and no
    client object, calls the methods of the locker in any order, and between
    two calls the collaborators act on their own (ioredis changes the status
    of a client, other replicas write to the store, time passes). *)
Inductive step (env : Env) : Locker.St -> Locker.St -> Prop :=
| step_defineCommand s :
    step env s (Locker.defineCommand env s).2
| step_lock key expire s :
    step env s (Locker.lock env key expire s).2
| step_waitLock key expire interval waitTime s :
    step env s (Locker.waitLock env key expire interval waitTime s).2
| step_unLock key s :
    step env s (Locker.unLock env key s).2
| step_status cid st s :
    step env s
         (s.1, with_clients (alter (fun c => mkClient st (lua_unlock c)) cid (clients s.2)) s.2)
| step_store db t s :
    (clock s.2 <= t)%Z ->
    step env s (s.1, with_clock t (with_redis db s.2)).

Definition initial (opts : Locker.Options) (t : Z) (db : gmap string Redis.LockRecord)
  : Locker.St :=
  (Locker.new opts, mkWorld t db ∅ [] [] 0).

Definition reachable (env : Env) (s : Locker.St) : Prop :=
  exists opts t db, rtc (step env) (initial opts t db) s.

(** The release script is on a client iff it was registered there once, and
    the client the locker holds has it. *)
Definition registered_once (s : Locker.St) : Prop :=
  (forall cid, registrations cid s.2 = if Locker.has_lua_unlock cid s.2 then 1 else 0) /\
  (forall cid, Locker.client s.1 = Some cid -> Locker.has_lua_unlock cid s.2 = true).

(** One turn of the loop of [waitLock] that does not end it: an acquire that
    fails, then the pause. *)
Definition failed_turn (env : Env) (key : string) (expire : option Z) (interval : Z)
           (s : Locker.St) : Locker.St :=
  (Locker.delay env (Some interval) (Locker.lock env key expire s).2).2.

(** The state at the head of turn [n]. *)
Fixpoint poll_state (env : Env) (key : string) (expire : option Z) (interval : Z)
         (n : nat) (s : Locker.St) : Locker.St :=
  match n with
  | O => s
  | S n' => poll_state env key expire interval n' (failed_turn env key expire interval s)
  end.

(** The healthy client of [defineCommand]. *)
Definition healthy (s : Locker.St) : bool :=
  match Locker.client s.1 with
  | Some cid =>
      match clients s.2 !! cid with
      | Some c => String.eqb (status c) "ready"
      | None => false
      end
  | None => false
  end.

(** What [defineCommand] logs when the connection request throws. *)
Definition connect_failed_log (e : Err) : LogArg :=
  LogStr ("Redis connection failed. at ScheduleLocker.InitRedisConn. " +:+ err_message e).

(** The world once the script has been defined on client [cid]. *)
Definition defined_on (cid : nat) (w : World) : World :=
  with_trace (trace w ++ [EvDefineCommand cid "lua_unlock"])
    (with_clients (alter (fun c => mkClient (status c) true) cid (clients w)) w).

(** Two states with the same client objects, the same client held by the
    locker and the same registrations. *)
Definition same_clients (s s' : Locker.St) : Prop :=
  clients s'.2 = clients s.2 /\
  Locker.client s'.1 = Locker.client s.1 /\
  forall cid, registrations cid s'.2 = registrations cid s.2.

(** The calls that ask the locker for the lock. *)
Definition is_acquisition (c : Schedule.Call) : bool :=
  match c with
  | Schedule.CLock _ _ | Schedule.CWaitLock _ _ _ _ => true
  | _ => false
  end.

(** What the caller of an async method sees of the outcome of its body. *)
Definition settled {V : Type} (o : Outcome V) : Outcome (option V) :=
  match o with
  | Return res => Return (Some res)
  | Raise e => Raise e
  end.

(** How many [SET] commands a trace holds. *)
Definition sets_sent (tr : list Event) : nat := length (List.filter is_set tr).

(** Every entry of [lockMap] sits under a key with the configured prefix and
    holds a token of 32 hex digits. *)
Definition tracked_wf (s : Locker.St) : Prop :=
  forall k e,
    Locker.lockMap s.1 !! k = Some e ->
    (exists key, k = Locker.key_prefix (Locker.options s.1) +:+ key) /\
    (exists bytes, length bytes = 16 /\ Locker.value e = Hex.toString bytes).

(** A lock that is held: [lockMap] has an entry for the key and the store
    has a record for it, both with the same token; the entry has a positive
    [expire]. *)
Definition holds (s : Locker.St) (k : string) : Prop :=
  exists e r,
    Locker.lockMap s.1 !! k = Some e /\
    redis s.2 !! k = Some r /\
    Redis.rec_value r = Locker.value e /\
    (0 < Locker.expire e)%Z.

(** ** Concrete runs *)

Module Scenario.

Definition counting_byte (n : nat) : byte :=
  match Byte.of_nat (n mod 256) with
  | Some b => b
  | None => x00
  end.

(** The store answers at once and hands out the ready client 0. *)
Definition env_ok : Env :=
  mkEnv (fun _ => ConnClient 0 "ready") (fun _ => None) (fun _ => 0) counting_byte.

(** The store cannot be reached. *)
Definition env_down : Env :=
  mkEnv (fun _ => ConnThrow (Error "connect ECONNREFUSED 127.0.0.1:6379"))
        (fun _ => Some (Error "Connection is closed."))
        (fun _ => 0) counting_byte.

Definition w0 : World := mkWorld 0 ∅ ∅ [] [] 0.

(** Two replicas with the same configuration. *)
Definition A : Locker.t := Locker.new (Locker.mkOptions "app:").
Definition B : Locker.t := Locker.new (Locker.mkOptions "app:").

(** A holds "job" for 100 ms. *)
Definition A_holds : Locker.St := (Locker.lock env_ok "job" (Some 100%Z) (A, w0)).2.

(** 150 ms later the record of A has expired and B takes the key ... *)
Definition B_holds : Locker.St :=
  (Locker.lock env_ok "job" (Some 100%Z) (B, with_clock 150 A_holds.2)).2.

(** ... while A still believes that it holds it. *)
Definition A_stale : Locker.St := (A_holds.1, B_holds.2).

(** A decorated method that returns 7, and one that throws. *)
Definition returns7 : M Locker.St nat := ret 7.
Definition boom : Err := Error "boom".
Definition throws : M Locker.St nat := throw boom.

Definition shared (env : Env) : Schedule.ScheduleLockerInterface Locker.St :=
  Schedule.mkScheduleLocker (Some (Schedule.Locker_interface env)).

Definition not_initialised : Schedule.ScheduleLockerInterface Locker.St :=
  Schedule.mkScheduleLocker None.

End Scenario.

(** * Properties *)

Section Hex_facts.

Lemma hex_parse_unfold (hi lo : ascii) (rest : string) :
  Hex.parse (String hi (String lo rest)) =
  match Hex.undigit hi, Hex.undigit lo, Hex.parse rest with
  | Some h, Some l, Some bs =>
      match Byte.of_N (16 * h + l) with
      | Some b => Some (b :: bs)
      | None => None
      end
  | _, _, _ => None
  end.
Proof. reflexivity. Qed.

Lemma hex_byte_roundtrip (b : byte) (rest : string) (bs : list byte) :
  Hex.parse rest = Some bs ->
  Hex.parse (Hex.toString [b] +:+ rest) = Some (b :: bs).
Proof.
  intros H.
  change (Hex.toString [b] +:+ rest)
    with (String (Hex.digit (Byte.to_N b / 16)) (String (Hex.digit (Byte.to_N b mod 16)) rest)).
  rewrite hex_parse_unfold, H. destruct b; reflexivity.
Qed.

Lemma hex_parse_toString (bs : list byte) : Hex.parse (Hex.toString bs) = Some bs.
Proof.
  induction bs as [|b bs IH]; [reflexivity|].
  change (Hex.toString (b :: bs)) with (Hex.toString [b] +:+ Hex.toString bs).
  now apply hex_byte_roundtrip.
Qed.

Lemma hex_toString_inj (xs ys : list byte) : Hex.toString xs = Hex.toString ys -> xs = ys.
Proof.
  intros H. assert (Some xs = Some ys) as [= ->]; [|done].
  rewrite <- !hex_parse_toString. now rewrite H.
Qed.

Lemma hex_toString_length (bs : list byte) :
  String.length (Hex.toString bs) = 2 * length bs.
Proof. induction bs as [|b bs IH]; cbn [Hex.toString String.length length]; lia. Qed.

End Hex_facts.

(** ** Obtaining the client: [defineCommand] *)

Ltac js_run :=
  cbv [try_catch try_finally bind ret throw gets modify
       Locker.on_this Locker.on_world Locker.logger_Error Locker.Date_now
       Locker.prefixed fst snd].

Section DefineCommand_facts.
Variable env : Env.

Lemma defineCommand_healthy (s : Locker.St) :
  healthy s = true ->
  Locker.defineCommand env s = (Return (Locker.client s.1), s).
Proof.
  destruct s as [this w]. unfold healthy, Locker.defineCommand, Locker.client_ready.
  js_run. intros ->. reflexivity.
Qed.

Lemma defineCommand_unhealthy (s : Locker.St) :
  healthy s = false ->
  Locker.defineCommand env s =
  let w := request env EvGetConnection s.2 in
  match getConnection env (length (trace s.2)) with
  | ConnThrow e => (Return None, (s.1, log_write LError (connect_failed_log e) w))
  | ConnNull => (Return None, (Locker.with_client None s.1, w))
  | ConnClient cid st =>
      (Return (Some cid),
       (Locker.with_client (Some cid) s.1,
        if Locker.has_lua_unlock cid w
        then Locker.hand_out cid st w
        else defined_on cid (Locker.hand_out cid st w)))
  end.
Proof.
  destruct s as [this w]. unfold healthy, Locker.defineCommand, Locker.client_ready.
  js_run. intros ->. unfold Locker.Store_getConnection. cbn [fst snd].
  destruct (getConnection env (length (trace w))) as [e| |cid st]; try reflexivity.
  assert (Locker.has_lua_unlock cid (Locker.hand_out cid st (request env EvGetConnection w))
          = Locker.has_lua_unlock cid (request env EvGetConnection w)) as ->.
  { unfold Locker.has_lua_unlock at 1. unfold Locker.hand_out. cbn.
    now rewrite lookup_insert_eq. }
  destruct (Locker.has_lua_unlock cid (request env EvGetConnection w)); reflexivity.
Qed.

(** What [defineCommand] leaves alone, and what it may add. *)
Lemma defineCommand_frame (s s1 : Locker.St) (o : Outcome (option nat)) :
  Locker.defineCommand env s = (o, s1) ->
  (exists c, o = Return c /\ (c = None \/ c = Locker.client s1.1)) /\
  Locker.lockMap s1.1 = Locker.lockMap s.1 /\
  Locker.options s1.1 = Locker.options s.1 /\
  redis s1.2 = redis s.2 /\
  drawn s1.2 = drawn s.2 /\
  (clock s.2 <= clock s1.2)%Z /\
  (exists evs, trace s1.2 = trace s.2 ++ evs /\
               List.filter is_key_command evs = [] /\
               (healthy s = true -> evs = []) /\
               (healthy s = false -> List.filter is_connection evs = [EvGetConnection])) /\
  (exists l, log s1.2 = log s.2 ++ l /\ (healthy s = true -> l = [])).
Proof.
  destruct (healthy s) eqn:Hh.
  - rewrite defineCommand_healthy by done. intros [= <- <-].
    repeat split; try done; try lia.
    + eexists; split; [done|]. now right.
    + exists []. now rewrite app_nil_r.
    + exists []. now rewrite app_nil_r.
  - rewrite defineCommand_unhealthy by done. cbv zeta.
    destruct (getConnection env (length (trace s.2))) as [e| |cid st];
      intros [= <- <-]; cbn [fst snd].
    + repeat split; try done; cbn; try lia.
      * eexists; split; [done|]. now left.
      * now exists [EvGetConnection].
      * now eexists.
    + repeat split; try done; cbn; try lia.
      * eexists; split; [done|]. now right.
      * now exists [EvGetConnection].
      * exists []. now rewrite app_nil_r.
    + destruct (Locker.has_lua_unlock cid (request env EvGetConnection s.2));
        (repeat split; try done; cbn; try lia;
         [ eexists; split; [done|]; now right
         | first [ now exists [EvGetConnection]
                 | exists [EvGetConnection; EvDefineCommand cid "lua_unlock"];
                   now rewrite <- app_assoc ]
         | exists []; now rewrite app_nil_r ]).
Qed.

(** [defineCommand] never looks at the key space. *)
Lemma defineCommand_with_redis (this : Locker.t) (w : World)
      (db : gmap string Redis.LockRecord) :
  Locker.defineCommand env (this, with_redis db w) =
  ((Locker.defineCommand env (this, w)).1,
   ((Locker.defineCommand env (this, w)).2.1,
    with_redis db (Locker.defineCommand env (this, w)).2.2)).
Proof.
  destruct (healthy (this, w)) eqn:Hh.
  - rewrite (defineCommand_healthy (this, w)) by done.
    now rewrite (defineCommand_healthy (this, with_redis db w)) by done.
  - rewrite (defineCommand_unhealthy (this, w)) by done.
    rewrite (defineCommand_unhealthy (this, with_redis db w)) by done.
    cbv zeta. cbn [fst snd]. change (trace (with_redis db w)) with (trace w).
    destruct (getConnection env (length (trace w))) as [e| |cid st]; try reflexivity.
    change (Locker.has_lua_unlock cid (request env EvGetConnection (with_redis db w)))
      with (Locker.has_lua_unlock cid (request env EvGetConnection w)).
    now destruct (Locker.has_lua_unlock cid (request env EvGetConnection w)).
Qed.

End DefineCommand_facts.

(** ** Release: [unLock] *)

Section UnLock_facts.
Variable env : Env.

(** [unLock], one step after [defineCommand]. *)
Lemma unLock_eval (key : string) (s s1 : Locker.St) (c : option nat) :
  Locker.defineCommand env s = (Return c, s1) ->
  Locker.unLock env key s =
  let k := Locker.key_prefix (Locker.options s.1) +:+ key in
  match Locker.lockMap s.1 !! k with
  | None => (Return None, s1)
  | Some e =>
      match c with
      | None =>
          (Return (Some false),
           (s1.1, log_write LError
                    (LogErr (TypeError "Cannot read properties of null (reading 'lua_unlock')"))
                    s1.2))
      | Some cid =>
          if Locker.has_lua_unlock cid s1.2 then
            let w := request env (EvLuaUnlock k (Locker.value e)) s1.2 in
            match transport env (length (trace s1.2)) with
            | Some err => (Return (Some false), (s1.1, log_write LError (LogErr err) w))
            | None =>
                (Return (Some true),
                 (Locker.with_lockMap (delete k (Locker.lockMap s1.1)) s1.1,
                  with_redis
                    (Redis.lua_unlock_script (clock w) (redis w) k (Locker.value e)).2 w))
            end
          else
            (Return (Some false),
             (s1.1, log_write LError (LogErr (TypeError "client.lua_unlock is not a function"))
                      s1.2))
      end
  end.
Proof.
  intros Hd. pose proof (defineCommand_frame env _ _ _ Hd) as (_ & Hm & Ho & _).
  destruct s as [this w], s1 as [this1 w1]; cbn [fst snd] in *.
  unfold Locker.unLock. js_run. rewrite Hd. cbv zeta. rewrite Hm, Ho.
  destruct (Locker.lockMap this !! _) as [e|]; [|done].
  unfold Locker.client_lua_unlock. destruct c as [cid|]; [|done].
  cbn beta iota delta [fst snd].
  destruct (Locker.has_lua_unlock cid w1); [|done].
  destruct (transport env (length (trace w1))); [done|].
  destruct (Redis.lua_unlock_script _ _ _ _). cbn [snd]. now rewrite Hm.
Qed.

Lemma unLock_never_raises (key : string) (s : Locker.St) :
  exists r, (Locker.unLock env key s).1 = Return r.
Proof.
  destruct (Locker.defineCommand env s) as [o s1] eqn:Hd.
  destruct (defineCommand_frame env _ _ _ Hd) as ((c & -> & _) & _).
  rewrite (unLock_eval _ _ _ _ Hd). cbv zeta.
  repeat case_match; cbn; eauto.
Qed.

Lemma lua_unlock_script_effect (t : Z) (db : gmap string Redis.LockRecord)
      (k arg : string) :
  (Redis.lua_unlock_script t db k arg).2 = db \/
  (exists r, db !! k = Some r /\ Redis.rec_value r = arg /\
             (Redis.lua_unlock_script t db k arg).2 = delete k db).
Proof.
  unfold Redis.lua_unlock_script, Redis.get, Redis.del, Redis.get.
  destruct (db !! k) as [r|] eqn:Hk; [|now left].
  destruct (t <? Redis.rec_deadline r)%Z; [|now left].
  destruct (String.eqb (Redis.rec_value r) arg) eqn:He; [|now left].
  right. exists r. apply String.eqb_eq in He. done.
Qed.

(** [unLock] answers the same whatever the key space holds. *)
Lemma unLock_with_redis (key : string) (this : Locker.t) (w : World)
      (db : gmap string Redis.LockRecord) :
  (Locker.unLock env key (this, with_redis db w)).1 = (Locker.unLock env key (this, w)).1 /\
  (Locker.unLock env key (this, with_redis db w)).2.1 = (Locker.unLock env key (this, w)).2.1.
Proof.
  destruct (Locker.defineCommand env (this, w)) as [o [this1 w1]] eqn:Hd.
  destruct (defineCommand_frame env _ _ _ Hd) as ((c & -> & _) & _).
  rewrite (unLock_eval key _ _ _ Hd).
  rewrite (unLock_eval key (this, with_redis db w) (this1, with_redis db w1) c)
    by (now rewrite defineCommand_with_redis, Hd).
  cbv zeta. cbn [fst snd].
  change (Locker.has_lua_unlock ?c (with_redis db w1)) with (Locker.has_lua_unlock c w1).
  change (trace (with_redis db w1)) with (trace w1).
  repeat case_match; done.
Qed.

End UnLock_facts.

Section Release_claims.
Variable env : Env.

(** C1. A release never touches a record that holds another token: when
    the key of the store holds a value different from the token recorded
    in [lockMap], [unLock] leaves the key space as it was; and whenever
    [unLock] does change the key space, the only change is the deletion of
    its own key, whose record held exactly the recorded token. *)
Theorem unLock_deletes_only_own_token (key : string) (s : Locker.St) :
  let k := Locker.key_prefix (Locker.options s.1) +:+ key in
  let s' := (Locker.unLock env key s).2 in
  (forall e r,
      Locker.lockMap s.1 !! k = Some e ->
      redis s.2 !! k = Some r ->
      Redis.rec_value r <> Locker.value e ->
      redis s'.2 = redis s.2) /\
  (redis s'.2 = redis s.2 \/
   exists e r,
     Locker.lockMap s.1 !! k = Some e /\
     redis s.2 !! k = Some r /\
     Redis.rec_value r = Locker.value e /\
     redis s'.2 = delete k (redis s.2)).
Proof.
  intros k s'.
  assert (redis s'.2 = redis s.2 \/
          exists e r,
            Locker.lockMap s.1 !! k = Some e /\
            redis s.2 !! k = Some r /\
            Redis.rec_value r = Locker.value e /\
            redis s'.2 = delete k (redis s.2)) as Hcases.
  { subst s'. destruct (Locker.defineCommand env s) as [o s1] eqn:Hd.
    destruct (defineCommand_frame env _ _ _ Hd) as ((c & -> & _) & _ & _ & Hr & _).
    rewrite (unLock_eval env key _ _ _ Hd). cbv zeta. fold k.
    destruct (Locker.lockMap s.1 !! k) as [e|] eqn:Hk; [|now left].
    destruct c as [cid|]; [|now left].
    destruct (Locker.has_lua_unlock cid s1.2); [|now left].
    destruct (transport env (length (trace s1.2))); [now left|].
    cbn [fst snd]. change (redis (with_redis ?d _)) with d.
    change (redis (request env ?ev ?w)) with (redis w). rewrite Hr.
    match goal with
    | |- context [Redis.lua_unlock_script ?t ?d ?k ?v] =>
        destruct (lua_unlock_script_effect t d k v) as [->|(r & Hr1 & Hr2 & ->)]
    end; [now left|].
    right. now exists e, r. }
  split; [|exact Hcases].
  intros e r He Hr Hne. destruct Hcases as [|(e' & r' & He' & Hr' & Heq & _)]; [done|].
  congruence.
Qed.

(** The value [unLock] returns does not depend on what the key space
    holds: absent key, own token and foreign token are answered alike. *)
Theorem unLock_result_ignores_store (key : string) (this : Locker.t) (w : World)
        (db : gmap string Redis.LockRecord) :
  (Locker.unLock env key (this, with_redis db w)).1 = (Locker.unLock env key (this, w)).1.
Proof. apply unLock_with_redis. Qed.

(** C3 (amended). For a key with no entry in [lockMap], [unLock] returns
    [null] and sends no command on any key: the key space and [lockMap]
    stay as they were.  It does obtain the client first: with a healthy
    client nothing at all is asked of the store, otherwise one connection
    request is made (and the script possibly registered). *)
Theorem unLock_untracked (key : string) (s : Locker.St) :
  Locker.lockMap s.1 !! (Locker.key_prefix (Locker.options s.1) +:+ key) = None ->
  let r := Locker.unLock env key s in
  r.1 = Return None /\
  redis r.2.2 = redis s.2 /\
  Locker.lockMap r.2.1 = Locker.lockMap s.1 /\
  (exists evs, trace r.2.2 = trace s.2 ++ evs /\
               List.filter is_key_command evs = [] /\
               (healthy s = false -> List.filter is_connection evs = [EvGetConnection])) /\
  (healthy s = true -> r.2 = s).
Proof.
  intros Hk r. subst r.
  destruct (Locker.defineCommand env s) as [o s1] eqn:Hd.
  destruct (defineCommand_frame env _ _ _ Hd)
    as ((c & -> & _) & Hm & _ & Hr & _ & _ & (evs & Ht & Hf & Hh & Hc) & _).
  rewrite (unLock_eval env key _ _ _ Hd). cbv zeta. rewrite Hk. cbn [fst snd].
  repeat split; try done.
  - now exists evs.
  - intros H. rewrite (defineCommand_healthy env s H) in Hd. congruence.
Qed.

(** C4 (amended). [unLock] never raises.  On a key with an entry in
    [lockMap]: when a client is obtained that has the release script and the
    command goes through, the script is sent once with the recorded token, the
    entry is removed and [true] is returned, whatever the script finds in the
    store (released, absent, mismatch).  On a store error the error is logged
    as the last entry, [false] is returned and the entry is still there: no
    client (nothing is sent), a client without the script (nothing is sent),
    or a command that fails on the wire. *)
Theorem unLock_tracked (key : string) (s : Locker.St) (e : Locker.Entry) :
  let k := Locker.key_prefix (Locker.options s.1) +:+ key in
  Locker.lockMap s.1 !! k = Some e ->
  let d := Locker.defineCommand env s in
  let n := length (trace d.2.2) in
  let arrival := (clock d.2.2 + Z.of_nat (latency env n))%Z in
  let r := Locker.unLock env key s in
  (exists v, r.1 = Return (Some v)) /\
  (forall cid,
      d.1 = Return (Some cid) -> Locker.has_lua_unlock cid d.2.2 = true ->
      trace r.2.2 = trace d.2.2 ++ [EvLuaUnlock k (Locker.value e)] /\
      (transport env n = None ->
       r.1 = Return (Some true) /\
       Locker.lockMap r.2.1 = delete k (Locker.lockMap s.1) /\
       Locker.lockMap r.2.1 !! k = None /\
       redis r.2.2 = (Redis.lua_unlock_script arrival (redis s.2) k (Locker.value e)).2 /\
       log r.2.2 = log d.2.2) /\
      (forall err, transport env n = Some err ->
                   r.1 = Return (Some false) /\
                   Locker.lockMap r.2.1 = Locker.lockMap s.1 /\
                   redis r.2.2 = redis s.2 /\
                   log r.2.2 = log d.2.2 ++ [(LError, LogErr err)])) /\
  (forall cid,
      d.1 = Return (Some cid) -> Locker.has_lua_unlock cid d.2.2 = false ->
      r.1 = Return (Some false) /\
      Locker.lockMap r.2.1 = Locker.lockMap s.1 /\
      redis r.2.2 = redis s.2 /\
      trace r.2.2 = trace d.2.2 /\
      log r.2.2 = log d.2.2 ++ [(LError, LogErr (TypeError "client.lua_unlock is not a function"))]) /\
  (d.1 = Return None ->
   r.1 = Return (Some false) /\
   Locker.lockMap r.2.1 = Locker.lockMap s.1 /\
   redis r.2.2 = redis s.2 /\
   trace r.2.2 = trace d.2.2 /\
   log r.2.2 = log d.2.2
                ++ [(LError, LogErr (TypeError "Cannot read properties of null (reading 'lua_unlock')"))]) /\
  (forall db,
      Locker.lockMap (Locker.unLock env key (s.1, with_redis db s.2)).2.1
      = Locker.lockMap r.2.1).
Proof.
  intros k Hk d n arrival r. subst r n arrival d.
  assert (forall db,
             Locker.lockMap (Locker.unLock env key (s.1, with_redis db s.2)).2.1
             = Locker.lockMap (Locker.unLock env key s).2.1) as Hdb.
  { intros db. destruct s as [this w]. cbn [fst snd].
    now destruct (unLock_with_redis env key this w db) as [_ ->]. }
  destruct (Locker.defineCommand env s) as [o s1] eqn:Hd.
  destruct (defineCommand_frame env _ _ _ Hd) as ((c & -> & _) & Hm & _ & Hr & _).
  rewrite (unLock_eval env key _ _ _ Hd) in Hdb |- *. cbv zeta in Hdb |- *.
  fold k in Hdb |- *. rewrite Hk in Hdb |- *. cbn [fst snd].
  split; [repeat case_match; cbn; eauto|].
  split; [|split; [|split; [|exact Hdb]]].
  - intros cid [= ->] Hlua. rewrite Hlua. split.
    { destruct (transport env (length (trace s1.2))); reflexivity. }
    split.
    + intros ->. cbn [fst snd Locker.lockMap Locker.with_lockMap redis with_redis log].
      rewrite Hm, lookup_delete_eq, <- Hr. done.
    + intros err ->. cbn. done.
  - intros cid [= ->] Hlua. rewrite Hlua. cbn. done.
  - intros [= ->]. cbn. done.
Qed.

End Release_claims.

(** ** Acquire: [lock] *)

Section Lock_claims.
Variable env : Env.

(** [lock], one step after [defineCommand]. *)
Lemma lock_eval (key : string) (expire : option Z) (s s1 : Locker.St) (c : option nat) :
  Locker.defineCommand env s = (Return c, s1) ->
  Locker.lock env key expire s =
  let k := Locker.key_prefix (Locker.options s.1) +:+ key in
  let px := default 10000%Z expire in
  let token := Hex.toString (map (csprng env) (seq (drawn s.2) 16)) in
  let w1 := with_drawn (drawn s.2 + 16) s1.2 in
  match c with
  | None =>
      (Return false,
       (s1.1, log_write LError
                (LogErr (TypeError "Cannot read properties of null (reading 'set')")) w1))
  | Some _ =>
      let w := request env (EvSet k token px) w1 in
      match transport env (length (trace s1.2)) with
      | Some err => (Return false, (s1.1, log_write LError (LogErr err) w))
      | None =>
          if (px <=? 0)%Z then
            (Return false,
             (s1.1, log_write LError
                      (LogErr (ReplyError "ERR invalid expire time in 'set' command")) w))
          else
            match Redis.get (clock w) (redis s.2) k with
            | Some _ =>
                (Return false,
                 (s1.1, log_write LError (LogStr "lock error: key already exists") w))
            | None =>
                (Return true,
                 (Locker.with_lockMap
                    (<[k := Locker.mkEntry token px (clock w)]> (Locker.lockMap s.1)) s1.1,
                  with_redis (<[k := Redis.mkRecord token (clock w + px)]> (redis s.2)) w))
            end
      end
  end.
Proof.
  intros Hd.
  pose proof (defineCommand_frame env _ _ _ Hd) as (_ & Hm & Ho & Hr & Hdr & _).
  destruct s as [this w], s1 as [this1 w1]; cbn [fst snd] in *.
  unfold Locker.lock. js_run. rewrite Hd. cbv zeta. rewrite Ho.
  unfold Locker.crypto_randomBytes, Locker.client_set. js_run.
  rewrite Hdr. destruct c as [cid|]; [|done]. js_run.
  destruct w1 as [t1 db1 cs1 tr1 l1 d1]; cbn in Hr, Hdr |- *. subst db1 d1.
  destruct (transport env (length tr1)); [done|].
  destruct (default 10000%Z expire <=? 0)%Z; [done|].
  unfold Redis.set_nx_px.
  destruct (Redis.get _ _ _); [reflexivity|].
  cbn. now rewrite Hm.
Qed.

Lemma lock_never_raises (key : string) (expire : option Z) (s : Locker.St) :
  exists b, (Locker.lock env key expire s).1 = Return b.
Proof.
  destruct (Locker.defineCommand env s) as [o s1] eqn:Hd.
  destruct (defineCommand_frame env _ _ _ Hd) as ((c & -> & _) & _).
  rewrite (lock_eval _ _ _ _ _ Hd). cbv zeta.
  repeat case_match; cbn; eauto.
Qed.

Lemma lock_clock_mono (key : string) (expire : option Z) (s : Locker.St) :
  (clock s.2 <= clock (Locker.lock env key expire s).2.2)%Z.
Proof.
  destruct (Locker.defineCommand env s) as [o s1] eqn:Hd.
  destruct (defineCommand_frame env _ _ _ Hd) as ((c & -> & _) & _ & _ & _ & _ & Hc & _).
  rewrite (lock_eval _ _ _ _ _ Hd). cbv zeta.
  repeat case_match; cbn; lia.
Qed.

(** C5. Every [lock(key, expire)] draws 16 fresh bytes (128 bits) from the
    CSPRNG and uses their 32 hex digits, which determine the bytes, as token,
    and never throws.  With a client obtained it sends exactly one
    [SET key token NX PX expire]: when the key is free as the command arrives,
    the set succeeds, the record is in the store with that token, expiring
    [expire] ms after the arrival, an entry with the token is in [lockMap] and
    [true] is returned; when the key is there, [false] is returned after that
    one command, with nothing changed (no retry); when the command fails it is
    a store error.  A store error (also: no client could be obtained, and then
    nothing is sent) is logged as the last entry and [false] is returned,
    with nothing changed. *)
Theorem lock_single_attempt (key : string) (expire : option Z) (s : Locker.St) :
  let k := Locker.key_prefix (Locker.options s.1) +:+ key in
  let px := default 10000%Z expire in
  let bytes := map (csprng env) (seq (drawn s.2) 16) in
  let token := Hex.toString bytes in
  let d := Locker.defineCommand env s in
  let n := length (trace d.2.2) in
  let arrival := (clock d.2.2 + Z.of_nat (latency env n))%Z in
  let r := Locker.lock env key expire s in
  (length bytes = 16 /\ String.length token = 32 /\ Hex.parse token = Some bytes /\
   drawn r.2.2 = drawn s.2 + 16) /\
  (exists b, r.1 = Return b) /\
  (forall cid,
      d.1 = Return (Some cid) ->
      trace r.2.2 = trace d.2.2 ++ [EvSet k token px] /\
      List.filter is_set (trace r.2.2) = List.filter is_set (trace s.2) ++ [EvSet k token px] /\
      (transport env n = None -> (0 < px)%Z -> Redis.get arrival (redis s.2) k = None ->
       r.1 = Return true /\
       Locker.lockMap r.2.1 = <[k := Locker.mkEntry token px (clock r.2.2)]> (Locker.lockMap s.1) /\
       redis r.2.2 = <[k := Redis.mkRecord token (arrival + px)]> (redis s.2) /\
       log r.2.2 = log d.2.2) /\
      (transport env n = None -> (0 < px)%Z -> is_Some (Redis.get arrival (redis s.2) k) ->
       r.1 = Return false /\
       Locker.lockMap r.2.1 = Locker.lockMap s.1 /\
       redis r.2.2 = redis s.2 /\
       log r.2.2 = log d.2.2 ++ [(LError, LogStr "lock error: key already exists")]) /\
      (transport env n = None -> (px <= 0)%Z ->
       r.1 = Return false /\
       Locker.lockMap r.2.1 = Locker.lockMap s.1 /\
       redis r.2.2 = redis s.2 /\
       log r.2.2 = log d.2.2
                    ++ [(LError, LogErr (ReplyError "ERR invalid expire time in 'set' command"))]) /\
      (forall err, transport env n = Some err ->
                   r.1 = Return false /\
                   Locker.lockMap r.2.1 = Locker.lockMap s.1 /\
                   redis r.2.2 = redis s.2 /\
                   log r.2.2 = log d.2.2 ++ [(LError, LogErr err)])) /\
  (d.1 = Return None ->
   r.1 = Return false /\
   trace r.2.2 = trace d.2.2 /\
   Locker.lockMap r.2.1 = Locker.lockMap s.1 /\
   redis r.2.2 = redis s.2 /\
   log r.2.2 = log d.2.2
                ++ [(LError, LogErr (TypeError "Cannot read properties of null (reading 'set')"))]).
Proof.
  intros k px bytes token d n arrival r. subst r n arrival d.
  assert (length bytes = 16) as Hlen by (subst bytes; now rewrite length_map, length_seq).
  destruct (Locker.defineCommand env s) as [o s1] eqn:Hd.
  destruct (defineCommand_frame env _ _ _ Hd)
    as ((c & -> & _) & Hm & _ & Hr & _ & _ & (evs & Ht & Hf & _) & _).
  assert (List.filter is_set evs = []) as Hs.
  { clear -Hf. induction evs as [|ev evs IH]; [done|].
    cbn in Hf |- *. destruct ev; cbn in *; try done; auto. }
  rewrite (lock_eval _ _ _ _ _ Hd). cbv zeta. fold k px bytes token. cbn [fst snd].
  split; [|split; [|split]].
  - split; [done|]. split; [|split; [apply hex_parse_toString|]].
    + subst token. rewrite hex_toString_length, Hlen. reflexivity.
    + repeat case_match; reflexivity.
  - repeat case_match; cbn; eauto.
  - intros cid [= ->].
    change (trace (with_drawn ?m ?x)) with (trace x).
    split; [repeat case_match; reflexivity|].
    split.
    { assert (forall lg, trace (log_write LError lg (request env (EvSet k token px)
                                   (with_drawn (drawn s.2 + 16) s1.2)))
                         = trace s1.2 ++ [EvSet k token px]) as Hlg by reflexivity.
      repeat case_match; cbn [fst snd]; rewrite ?Hlg;
        change (trace (with_redis ?db0 ?x)) with (trace x);
        change (trace (request env ?ev (with_drawn ?m ?x))) with (trace x ++ [ev]);
        rewrite Ht, !List.filter_app, Hs, app_nil_r; reflexivity. }
    split; [|split; [|split]].
    + intros -> Hpx Hg. apply Z.leb_gt in Hpx. rewrite Hpx.
      change (clock (request env ?ev (with_drawn ?m ?x)))
        with (clock x + Z.of_nat (latency env (length (trace x))))%Z.
      rewrite Hg. cbn. done.
    + intros -> Hpx [v Hg]. apply Z.leb_gt in Hpx. rewrite Hpx.
      change (clock (request env ?ev (with_drawn ?m ?x)))
        with (clock x + Z.of_nat (latency env (length (trace x))))%Z.
      rewrite Hg. cbn. done.
    + intros -> Hpx. apply Z.leb_le in Hpx. rewrite Hpx. cbn. done.
    + intros err ->. cbn. done.
  - intros [= ->]. cbn. done.
Qed.

End Lock_claims.

(** ** Wait-acquire: [waitLock] *)

Section WaitLock_claims.
Variable env : Env.

Lemma timer_ms_pos (ms : Z) : (1 <= timer_ms ms)%Z.
Proof.
  unfold timer_ms. destruct (ms <? 1)%Z eqn:H; cbn; [lia|].
  destruct (2147483647 <? ms)%Z; lia.
Qed.

Lemma delay_eval (ms : Z) (s : Locker.St) :
  Locker.delay env (Some ms) s =
  (Return tt, (s.1, with_clock (clock (request env (EvDelay ms) s.2) + timer_ms ms)%Z
                               (request env (EvDelay ms) s.2))).
Proof. reflexivity. Qed.

Lemma attempt_eval (key : string) (expire : option Z) (s : Locker.St) (b : bool)
      (s1 : Locker.St) :
  Locker.lock env key expire s = (Return b, s1) ->
  Locker.attempt env key expire s = (Return (Some b), s1).
Proof. intros H. unfold Locker.attempt. js_run. now rewrite H. Qed.

(** A turn that fails ends with the pause and takes at least 1 ms. *)
Lemma failed_turn_effect (key : string) (expire : option Z) (interval : Z) (s : Locker.St) :
  let s1 := (Locker.lock env key expire s).2 in
  let s2 := failed_turn env key expire interval s in
  trace s2.2 = trace s1.2 ++ [EvDelay interval] /\
  (clock s1.2 + timer_ms interval <= clock s2.2)%Z /\
  (clock s.2 + 1 <= clock s2.2)%Z.
Proof.
  intros s1 s2. subst s2. unfold failed_turn. rewrite delay_eval. fold s1. cbn.
  pose proof (lock_clock_mono env key expire s) as Hm. fold s1 in Hm.
  pose proof (timer_ms_pos interval). repeat split; lia.
Qed.

Lemma waitLock_loop_spec (key : string) (expire : option Z) (interval waitTime start : Z) :
  forall (fuel : nat) (s : Locker.St),
    (Z.max 0 (waitTime - (clock s.2 - start)) < Z.of_nat fuel)%Z ->
    exists n : nat,
      (Z.of_nat n <= Z.max 0 (waitTime - (clock s.2 - start)))%Z /\
      (forall j, j < n ->
                 let sj := poll_state env key expire interval j s in
                 (clock sj.2 - start < waitTime)%Z /\
                 (Locker.lock env key expire sj).1 = Return false /\
                 last (trace (poll_state env key expire interval (S j) s).2)
                 = Some (EvDelay interval)) /\
      let sn := poll_state env key expire interval n s in
      (((clock sn.2 - start < waitTime)%Z /\
        (Locker.lock env key expire sn).1 = Return true /\
        Locker.waitLock_loop env fuel key expire interval waitTime start s
        = Some (Return true, (Locker.lock env key expire sn).2))
       \/
       ((waitTime <= clock sn.2 - start)%Z /\
        Locker.waitLock_loop env fuel key expire interval waitTime start s
        = Some (Return false, (sn.1, log_write LError (LogStr "waitLock timeout") sn.2)))).
Proof.
  induction fuel as [|fuel IH]; intros s Hfuel; [lia|].
  cbn [Locker.waitLock_loop].
  destruct (clock s.2 - start <? waitTime)%Z eqn:Hlt.
  2:{ apply Z.ltb_ge in Hlt. exists 0. split; [lia|]. split; [lia|].
      right. split; [exact Hlt|reflexivity]. }
  apply Z.ltb_lt in Hlt.
  destruct (lock_never_raises env key expire s) as [b Hb].
  destruct (Locker.lock env key expire s) as [o s1] eqn:Hl. cbn in Hb. subst o.
  rewrite (attempt_eval _ _ _ _ _ Hl).
  destruct b.
  { exists 0. split; [lia|]. split; [lia|].
    left. cbn [poll_state]. rewrite Hl. done. }
  pose proof (failed_turn_effect key expire interval s) as (Htr & _ & Hclk).
  set (s2 := failed_turn env key expire interval s) in *.
  assert (Locker.delay env (Some interval) s1 = (Return tt, s2)) as ->.
  { subst s2. unfold failed_turn. rewrite Hl. reflexivity. }
  destruct (IH s2) as (n & Hn & Hfail & Hend); [lia|].
  exists (S n). split; [lia|]. split.
  - intros [|j] Hj.
    + cbn [poll_state]. fold s2. rewrite Hl, Htr, last_snoc. done.
    + specialize (Hfail j ltac:(lia)). cbn [poll_state] in *. exact Hfail.
  - cbn [poll_state]. exact Hend.
Qed.

Lemma waitLock_loop_more_fuel (key : string) (expire : option Z)
      (interval waitTime start : Z) :
  forall (fuel fuel' : nat) (s : Locker.St) x,
    fuel <= fuel' ->
    Locker.waitLock_loop env fuel key expire interval waitTime start s = Some x ->
    Locker.waitLock_loop env fuel' key expire interval waitTime start s = Some x.
Proof.
  induction fuel as [|fuel IH]; intros fuel' s x Hle H; [discriminate|].
  destruct fuel' as [|fuel']; [lia|].
  cbn [Locker.waitLock_loop] in *.
  destruct (clock s.2 - start <? waitTime)%Z; [|exact H].
  destruct (Locker.attempt env key expire s) as [[[[|]|]|e] s1]; try exact H.
  - destruct (Locker.delay env (Some interval) s1) as [[|] s2]; [|exact H].
    apply IH; [lia|exact H].
  - destruct (Locker.delay env (Some interval) s1) as [[|] s2]; [|exact H].
    apply IH; [lia|exact H].
Qed.

(** [waitLock] returns, and in the state of one of the two ends of its
    loop. *)
Lemma waitLock_ends (key : string) (expire interval waitTime : option Z) (s : Locker.St) :
  exists (n : nat) (b : bool) (s' : Locker.St),
    Locker.waitLock_loop env (Locker.waitLock_turns waitTime) key expire
      (default 50%Z interval) (default 15000%Z waitTime) (clock s.2) s
    = Some (Return b, s') /\
    Locker.waitLock env key expire interval waitTime s = (Return b, s') /\
    let sn := poll_state env key expire (default 50%Z interval) n s in
    (s' = (Locker.lock env key expire sn).2 \/
     s' = (sn.1, log_write LError (LogStr "waitLock timeout") sn.2)).
Proof.
  destruct (waitLock_loop_spec key expire (default 50%Z interval) (default 15000%Z waitTime)
              (clock s.2) (Locker.waitLock_turns waitTime) s)
    as (n & _ & _ & Hend).
  { unfold Locker.waitLock_turns. lia. }
  exists n. cbv zeta in Hend.
  destruct Hend as [(_ & _ & Hloop)|(_ & Hloop)]; eexists _, _;
    (split; [exact Hloop|]);
    (split; [unfold Locker.waitLock, Locker.waitLock_fuel; now rewrite Hloop|]);
    [now left|now right].
Qed.

(** C6 (amended). [waitLock] calls [lock] again and again while the time
    elapsed since it started is below [waitTime], pausing [interval] ms after
    every attempt that fails; it returns [true] at the first attempt that
    succeeds, and [false], after logging the timeout, as soon as a turn
    starts with the elapsed time at [waitTime] or beyond (so at once, with no
    attempt, when [waitTime] is 0).  [interval] defaults to 50 and
    [waitTime] to 15000.  The loop ends within [waitTime] turns: any larger
    fuel gives the same result. *)
Theorem waitLock_polls (key : string) (expire interval waitTime : option Z)
        (s : Locker.St) :
  let i := default 50%Z interval in
  let wt := default 15000%Z waitTime in
  let start := clock s.2 in
  let r := Locker.waitLock env key expire interval waitTime s in
  (forall fuel, Locker.waitLock_turns waitTime <= fuel ->
                Locker.waitLock_fuel env fuel key expire interval waitTime s = Some r) /\
  exists n : nat,
    (Z.of_nat n <= Z.max 0 wt)%Z /\
    (forall j, j < n ->
               let sj := poll_state env key expire i j s in
               (clock sj.2 - start < wt)%Z /\
               (Locker.lock env key expire sj).1 = Return false /\
               last (trace (poll_state env key expire i (S j) s).2) = Some (EvDelay i)) /\
    let sn := poll_state env key expire i n s in
    (((clock sn.2 - start < wt)%Z /\
      (Locker.lock env key expire sn).1 = Return true /\
      r = (Return true, (Locker.lock env key expire sn).2))
     \/
     ((wt <= clock sn.2 - start)%Z /\
      r = (Return false, (sn.1, log_write LError (LogStr "waitLock timeout") sn.2)))).
Proof.
  intros i wt start r.
  destruct (waitLock_loop_spec key expire i wt start (Locker.waitLock_turns waitTime) s)
    as (n & Hn & Hfail & Hend).
  { unfold Locker.waitLock_turns. fold wt. subst start. lia. }
  assert (exists b s', Locker.waitLock_loop env (Locker.waitLock_turns waitTime) key expire
                         i wt start s = Some (Return b, s')) as (b & s' & Hloop).
  { destruct Hend as [(_ & _ & ->)|(_ & ->)]; eauto. }
  assert (r = (Return b, s')) as Hr.
  { subst r. unfold Locker.waitLock, Locker.waitLock_fuel. fold i wt start.
    now rewrite Hloop. }
  split.
  - intros fuel Hle. unfold Locker.waitLock_fuel. fold i wt start.
    rewrite (waitLock_loop_more_fuel _ _ _ _ _ _ _ _ _ Hle Hloop). now rewrite Hr.
  - exists n. replace (wt - (clock s.2 - start))%Z with wt in Hn by (subst start; lia).
    split; [exact Hn|]. split; [exact Hfail|].
    cbv zeta in *. rewrite Hr. rewrite Hloop in Hend.
    destruct Hend as [(H1 & H2 & [= -> ->])|(H1 & [= -> ->])]; [left|right]; done.
Qed.

End WaitLock_claims.

(** ** The connection and the release script *)

Section Connection_claims.
Variable env : Env.

Lemma registrations_snoc (cid : nat) (w : World) (ev : Event) :
  registrations cid (with_trace (trace w ++ [ev]) w) =
  registrations cid w + (if decide (ev = EvDefineCommand cid "lua_unlock") then 1 else 0).
Proof.
  unfold registrations. cbn [trace with_trace]. rewrite count_occ_app. cbn [count_occ].
  destruct (Event_eq_dec ev (EvDefineCommand cid "lua_unlock")); case_decide; done.
Qed.

Lemma same_clients_refl (s : Locker.St) : same_clients s s.
Proof. done. Qed.

Lemma same_clients_trans (s1 s2 s3 : Locker.St) :
  same_clients s1 s2 -> same_clients s2 s3 -> same_clients s1 s3.
Proof.
  intros (H1 & H2 & H3) (H4 & H5 & H6).
  split; [congruence|]. split; [congruence|].
  intros cid. now rewrite H6, H3.
Qed.

Lemma registered_once_same (s s' : Locker.St) :
  same_clients s s' -> registered_once s -> registered_once s'.
Proof.
  intros (Hc & Hcl & Hr) [H1 H2]. unfold registered_once, Locker.has_lua_unlock in *.
  rewrite Hc, Hcl. split; [|done]. intros cid. now rewrite Hr.
Qed.

(** A request that is not a registration changes nothing here. *)
Lemma same_clients_request (this : Locker.t) (w : World) (ev : Event) :
  (forall cid, ev <> EvDefineCommand cid "lua_unlock") ->
  same_clients (this, w) (this, request env ev w).
Proof.
  intros Hev. split; [done|]. split; [done|]. intros cid. cbn [fst snd].
  change (registrations cid (request env ev w))
    with (registrations cid (with_trace (trace w ++ [ev]) w)).
  rewrite registrations_snoc. case_decide; [by edestruct Hev|lia].
Qed.

Lemma has_lua_unlock_hand_out (cid cid' : nat) (st : string) (w : World) :
  Locker.has_lua_unlock cid' (Locker.hand_out cid st w) = Locker.has_lua_unlock cid' w.
Proof.
  unfold Locker.hand_out, Locker.has_lua_unlock at 1. cbn [clients with_clients].
  destruct (decide (cid = cid')) as [->|Hne].
  - now rewrite lookup_insert_eq.
  - now rewrite lookup_insert_ne.
Qed.

Lemma has_lua_unlock_defined_on (cid cid' : nat) (st : string) (w : World) :
  Locker.has_lua_unlock cid' (defined_on cid (Locker.hand_out cid st w)) =
  if decide (cid' = cid) then true else Locker.has_lua_unlock cid' w.
Proof.
  unfold defined_on, Locker.hand_out, Locker.has_lua_unlock at 1.
  cbn [clients with_clients with_trace].
  case_decide as Hd; [subst cid'|].
  - now rewrite lookup_alter_eq, lookup_insert_eq.
  - rewrite lookup_alter_ne, lookup_insert_ne by done. reflexivity.
Qed.

Lemma defineCommand_registered_once (s : Locker.St) :
  registered_once s -> registered_once (Locker.defineCommand env s).2.
Proof.
  intros [H1 H2]. destruct (healthy s) eqn:Hh.
  { now rewrite defineCommand_healthy. }
  rewrite defineCommand_unhealthy by done. cbv zeta.
  destruct s as [this w]. cbn [fst snd] in *.
  pose proof (same_clients_request this w EvGetConnection ltac:(done)) as Hreq.
  assert (registered_once (this, request env EvGetConnection w)) as [H3 H4]
      by (eapply registered_once_same; [exact Hreq|done]).
  cbn [fst snd] in *.
  destruct (getConnection env (length (trace w))) as [e| |cid st]; cbn [fst snd].
  - split; [|done]. intros cid. apply H3.
  - split; [|done]. intros cid. apply H3.
  - destruct (Locker.has_lua_unlock cid (request env EvGetConnection w)) eqn:Hl.
    + split; cbn [fst snd Locker.client Locker.with_client].
      * intros cid'. rewrite has_lua_unlock_hand_out. apply H3.
      * intros cid' [= <-]. now rewrite has_lua_unlock_hand_out.
    + split; cbn [fst snd Locker.client Locker.with_client].
      * intros cid'. rewrite has_lua_unlock_defined_on.
        change (registrations cid' (defined_on cid ?x))
          with (registrations cid'
                  (with_trace (trace (request env EvGetConnection w)
                               ++ [EvDefineCommand cid "lua_unlock"])
                              (request env EvGetConnection w))).
        rewrite registrations_snoc, H3.
        destruct (decide (cid' = cid)) as [->|Hne].
        -- rewrite Hl. now rewrite decide_True.
        -- rewrite decide_False by congruence. lia.
      * intros cid' [= <-]. rewrite has_lua_unlock_defined_on. now rewrite decide_True.
Qed.

Ltac solve_same_clients :=
  split; [reflexivity|]; split; [reflexivity|];
  intros ?; unfold registrations; cbn;
  rewrite ?count_occ_app; cbn; lia.

Lemma lock_same_clients (key : string) (expire : option Z) (s : Locker.St) :
  same_clients (Locker.defineCommand env s).2 (Locker.lock env key expire s).2.
Proof.
  destruct (Locker.defineCommand env s) as [o s1] eqn:Hd.
  destruct (defineCommand_frame env _ _ _ Hd) as ((c & -> & _) & _).
  rewrite (lock_eval env _ _ _ _ _ Hd). cbv zeta.
  destruct s1 as [this1 w1]. repeat case_match; solve_same_clients.
Qed.

Lemma unLock_same_clients (key : string) (s : Locker.St) :
  same_clients (Locker.defineCommand env s).2 (Locker.unLock env key s).2.
Proof.
  destruct (Locker.defineCommand env s) as [o s1] eqn:Hd.
  destruct (defineCommand_frame env _ _ _ Hd) as ((c & -> & _) & _).
  rewrite (unLock_eval env _ _ _ _ Hd). cbv zeta.
  destruct s1 as [this1 w1]. repeat case_match; solve_same_clients.
Qed.

Lemma lock_registered_once (key : string) (expire : option Z) (s : Locker.St) :
  registered_once s -> registered_once (Locker.lock env key expire s).2.
Proof.
  intros H. eapply registered_once_same; [apply lock_same_clients|].
  now apply defineCommand_registered_once.
Qed.

Lemma unLock_registered_once (key : string) (s : Locker.St) :
  registered_once s -> registered_once (Locker.unLock env key s).2.
Proof.
  intros H. eapply registered_once_same; [apply unLock_same_clients|].
  now apply defineCommand_registered_once.
Qed.

Lemma failed_turn_registered_once (key : string) (expire : option Z) (interval : Z)
      (s : Locker.St) :
  registered_once s -> registered_once (failed_turn env key expire interval s).
Proof.
  intros H. apply (lock_registered_once key expire) in H. unfold failed_turn.
  destruct (Locker.lock env key expire s).2 as [this1 w1].
  eapply registered_once_same; [|exact H]. rewrite delay_eval. solve_same_clients.
Qed.

Lemma poll_state_registered_once (key : string) (expire : option Z) (interval : Z)
      (n : nat) :
  forall s, registered_once s -> registered_once (poll_state env key expire interval n s).
Proof.
  induction n as [|n IH]; intros s H; [exact H|].
  cbn [poll_state]. now apply IH, failed_turn_registered_once.
Qed.

Lemma waitLock_registered_once (key : string) (expire interval waitTime : option Z)
      (s : Locker.St) :
  registered_once s ->
  registered_once (Locker.waitLock env key expire interval waitTime s).2.
Proof.
  intros H.
  destruct (waitLock_ends env key expire interval waitTime s)
    as (n & b & s' & _ & -> & [->| ->]); cbn [snd].
  - now apply lock_registered_once, poll_state_registered_once.
  - pose proof (poll_state_registered_once key expire (default 50%Z interval) n s H) as Hn.
    destruct (poll_state _ _ _ _ _ _) as [thisn wn].
    eapply registered_once_same; [|exact Hn]. solve_same_clients.
Qed.

Lemma step_registered_once (s s' : Locker.St) :
  step env s s' -> registered_once s -> registered_once s'.
Proof.
  intros Hstep H. destruct Hstep as [s|key expire s|key expire interval waitTime s|key s
                                     |cid st s|db t s Ht].
  - now apply defineCommand_registered_once.
  - now apply lock_registered_once.
  - now apply waitLock_registered_once.
  - now apply unLock_registered_once.
  - destruct H as [H1 H2]. destruct s as [this w].
    assert (forall cid', Locker.has_lua_unlock cid'
              (with_clients (alter (fun c => mkClient st (lua_unlock c)) cid (clients w)) w)
            = Locker.has_lua_unlock cid' w) as Hsame.
    { intros cid'. unfold Locker.has_lua_unlock. cbn [clients with_clients].
      destruct (decide (cid = cid')) as [->|Hne].
      - rewrite lookup_alter_eq. now destruct (clients w !! cid').
      - now rewrite lookup_alter_ne. }
    split; cbn [fst snd] in *.
    + intros cid'. rewrite Hsame. apply H1.
    + intros cid' Hc. rewrite Hsame. now apply H2.
  - destruct s as [this w]. eapply registered_once_same; [|exact H]. solve_same_clients.
Qed.

Lemma reachable_registered_once (s : Locker.St) :
  reachable env s -> registered_once s.
Proof.
  intros (opts & t & db & Hrtc).
  eapply (rtc_ind_r (fun x => registered_once x) (initial opts t db)); [| |exact Hrtc].
  - split; [|done]. intros cid. reflexivity.
  - intros y z _ Hstep IH. exact (step_registered_once _ _ Hstep IH).
Qed.

(** C9. Obtaining the client is idempotent.  A healthy client (status
    ready) is returned with nothing changed and nothing asked of the store;
    only otherwise is a connection requested, exactly once per call; a call
    that leaves a healthy client behind is repeated without any effect.
    In every state the process can reach, the release script has been
    registered at most once on each client object, and exactly once on the
    client that [defineCommand] returns. *)
Theorem defineCommand_idempotent (s : Locker.St) :
  reachable env s ->
  let r := Locker.defineCommand env s in
  (healthy s = true -> r = (Return (Locker.client s.1), s)) /\
  (healthy s = false ->
   exists evs, trace r.2.2 = trace s.2 ++ evs /\
               List.filter is_connection evs = [EvGetConnection]) /\
  (healthy r.2 = true -> Locker.defineCommand env r.2 = r) /\
  (forall cid, registrations cid r.2.2 <= 1) /\
  (forall cid, r.1 = Return (Some cid) ->
               registrations cid r.2.2 = 1 /\ Locker.has_lua_unlock cid r.2.2 = true).
Proof.
  intros Hreach r.
  pose proof (reachable_registered_once s Hreach) as Hinv.
  pose proof (defineCommand_registered_once s Hinv) as [H1 H2]. fold r in H1, H2.
  destruct r as [o s1] eqn:Hr. subst r.
  destruct (defineCommand_frame env _ _ _ Hr)
    as ((c & -> & Hc) & _ & _ & _ & _ & _ & (evs & Ht & _ & _ & Hconn) & _).
  cbn [fst snd] in *.
  split; [intros Hh; now rewrite <- Hr, defineCommand_healthy|].
  split; [intros Hh; exists evs; auto|].
  split.
  { intros Hh. rewrite defineCommand_healthy by done.
    destruct Hc as [->| ->]; [|done].
    exfalso. destruct (healthy s) eqn:Hs.
    - rewrite defineCommand_healthy in Hr by done. simplify_eq.
      unfold healthy in Hh. now rewrite H in Hh.
    - rewrite defineCommand_unhealthy in Hr by done. cbv zeta in Hr.
      unfold healthy in Hh, Hs.
      destruct (getConnection env (length (trace s.2))); simplify_eq;
        cbn in Hh; congruence. }
  split.
  - intros cid. rewrite H1. destruct (Locker.has_lua_unlock cid s1.2); lia.
  - intros cid [= ->]. destruct Hc as [|Hc]; [done|].
    symmetry in Hc. specialize (H2 cid Hc). now rewrite H1, H2.
Qed.

End Connection_claims.

(** ** Guarded execution: the method installed by [SchedulerLock] *)

Section Decorator_claims.
Context {S V : Type}.
Variable logger : Level -> LogArg -> S -> S.
Variables (name : string) (lockTimeOut waitLockInterval waitLockTimeOut : option Z).
Variable methodName : string.
Variable value : M S V.
Variable L : Schedule.LockerInterface S.

Local Abbreviation run_on G :=
  (Schedule.run logger name lockTimeOut waitLockInterval waitLockTimeOut methodName value G).
Local Abbreviation acquire :=
  (Schedule.acquire logger name lockTimeOut waitLockInterval waitLockTimeOut L).
Local Abbreviation executed := (LogStr (Schedule.executed name)).
Local Abbreviation not_executed := (LogStr (Schedule.not_executed name methodName)).
Local Abbreviation acquisition_call :=
  (if truthy waitLockInterval || truthy waitLockTimeOut
   then Schedule.CWaitLock name lockTimeOut waitLockInterval waitLockTimeOut
   else Schedule.CLock name lockTimeOut).

Lemma acquire_never_raises (s : S) : exists b, (acquire s).1 = Return b.
Proof.
  unfold Schedule.acquire, Schedule.log_error_false. js_run.
  destruct (truthy waitLockInterval || truthy waitLockTimeOut).
  - destruct (Schedule.waitLock L _ _ _ _ s) as [[b|er] s1]; eauto.
  - destruct (Schedule.lock L _ _ s) as [[b|er] s1]; eauto.
Qed.

(** The observed acquisition: the plain one, with one call written down
    (and the error of a rejected call, which is logged). *)
Lemma observed_acquire (s : S) (cs : list Schedule.Call) :
  exists errs,
    Schedule.acquire (Schedule.observed_logger logger) name lockTimeOut waitLockInterval
                     waitLockTimeOut (Schedule.observed_locker L) (s, cs)
    = ((acquire s).1, ((acquire s).2, cs ++ acquisition_call :: errs)) /\
    Forall (fun c => exists er, c = Schedule.CLog LError (LogErr er)) errs /\
    ((acquire s).1 = Return true -> errs = []).
Proof.
  unfold Schedule.acquire, Schedule.observed_locker, Schedule.observed,
    Schedule.observed_logger, Schedule.log_error_false.
  cbn [Schedule.lock Schedule.waitLock]. js_run.
  destruct (truthy waitLockInterval || truthy waitLockTimeOut).
  - destruct (Schedule.waitLock L name lockTimeOut waitLockInterval waitLockTimeOut s)
      as [[b|er] s1].
    + exists []. repeat split; constructor.
    + eexists [_]. rewrite <- app_assoc. split; [reflexivity|].
      split; [repeat constructor; eauto|discriminate].
  - destruct (Schedule.lock L name lockTimeOut s) as [[b|er] s1].
    + exists []. repeat split; constructor.
    + eexists [_]. rewrite <- app_assoc. split; [reflexivity|].
      split; [repeat constructor; eauto|discriminate].
Qed.

(** The guarded method after an acquisition that succeeded. *)
Lemma run_acquired (s s1 : S) (cs : list Schedule.Call) :
  acquire s = (Return true, s1) ->
  run_on (Schedule.mkScheduleLocker (Some L)) (s, cs) =
  let body := value (logger LInfo executed s1) in
  let cs2 := cs ++ [acquisition_call; Schedule.CLog LInfo executed; Schedule.CValue] in
  (settled body.1,
   match Schedule.unLock L with
   | Some u =>
       match (u name body.2).1 with
       | Return _ => ((u name body.2).2, cs2 ++ [Schedule.CUnLock name])
       | Raise er =>
           (logger LError (LogErr er) (u name body.2).2,
            cs2 ++ [Schedule.CUnLock name; Schedule.CLog LError (LogErr er)])
       end
   | None => (body.2, cs2)
   end).
Proof.
  intros Ha. destruct (observed_acquire s cs) as (errs & Hobs & _ & Hnil).
  rewrite Ha in Hobs, Hnil. cbn [fst snd] in *. rewrite Hnil in Hobs by done.
  unfold Schedule.run, Schedule.descriptor_value, Schedule.observed_ScheduleLocker.
  cbn [Schedule.locker]. unfold bind at 1. rewrite Hobs.
  unfold Schedule.release, Schedule.observed_locker, Schedule.observed,
    Schedule.observed_logger.
  cbn [Schedule.unLock]. js_run. cbv zeta.
  destruct (value (logger LInfo executed s1)) as [[res|e] s2];
    destruct (Schedule.unLock L) as [u|]; cbn [settled];
    try (destruct (u name s2) as [[x|er] s3]);
    rewrite <- ?app_assoc; reflexivity.
Qed.

(** The guarded method after an acquisition that failed. *)
Lemma run_not_acquired (s s1 : S) (cs : list Schedule.Call) :
  acquire s = (Return false, s1) ->
  exists errs,
    run_on (Schedule.mkScheduleLocker (Some L)) (s, cs) =
    (Return None,
     (logger LWarn not_executed s1,
      cs ++ acquisition_call :: errs ++ [Schedule.CLog LWarn not_executed])) /\
    Forall (fun c => exists er, c = Schedule.CLog LError (LogErr er)) errs.
Proof.
  intros Ha. destruct (observed_acquire s cs) as (errs & Hobs & Herrs & _).
  rewrite Ha in Hobs. cbn [fst snd] in *.
  exists errs. split; [|exact Herrs].
  unfold Schedule.run, Schedule.descriptor_value, Schedule.observed_ScheduleLocker.
  cbn [Schedule.locker]. unfold bind at 1. rewrite Hobs.
  unfold Schedule.observed_logger. js_run.
  now rewrite <- app_assoc.
Qed.

(** C7. After an acquisition that succeeded, the guarded method calls the
    decorated method once and then [unLock(name)] once, on every path: the
    calls it makes are the acquisition, the method, the release, in this
    order.  Its caller sees the outcome of the decorated method: the value
    it returned, or the very error it raised.  What the release does has no
    part in that outcome: an error of the release is logged. *)
Theorem guarded_release_once u (s s1 : S) (cs : list Schedule.Call) :
  Schedule.unLock L = Some u ->
  acquire s = (Return true, s1) ->
  let body := value (logger LInfo executed s1) in
  let rel := u name body.2 in
  let r := run_on (Schedule.mkScheduleLocker (Some L)) (s, cs) in
  r.1 = settled body.1 /\
  r.2.2 = cs ++ [acquisition_call; Schedule.CLog LInfo executed;
                 Schedule.CValue; Schedule.CUnLock name]
             ++ match rel.1 with
                | Return _ => []
                | Raise er => [Schedule.CLog LError (LogErr er)]
                end /\
  count_occ Schedule.Call_eq_dec r.2.2 (Schedule.CUnLock name)
  = 1 + count_occ Schedule.Call_eq_dec cs (Schedule.CUnLock name) /\
  count_occ Schedule.Call_eq_dec r.2.2 Schedule.CValue
  = 1 + count_occ Schedule.Call_eq_dec cs Schedule.CValue /\
  r.2.1 = match rel.1 with
          | Return _ => rel.2
          | Raise er => logger LError (LogErr er) rel.2
          end.
Proof.
  intros Hu Ha body rel r. subst r. rewrite (run_acquired s s1 cs Ha). cbv zeta.
  rewrite Hu. fold body. fold rel.
  assert (forall c, is_acquisition c = false ->
                    count_occ Schedule.Call_eq_dec [acquisition_call] c = 0) as Hacq.
  { intros c Hc. cbn. destruct (truthy waitLockInterval || truthy waitLockTimeOut);
      destruct (Schedule.Call_eq_dec _ c) as [<-|]; done. }
  destruct rel.1 as [x|er]; cbn [fst snd].
  - split; [done|]. split; [now rewrite <- app_assoc|].
    change (cs ++ [acquisition_call; Schedule.CLog LInfo executed; Schedule.CValue])
      with (cs ++ [acquisition_call] ++ [Schedule.CLog LInfo executed; Schedule.CValue]).
    rewrite !count_occ_app, !Hacq by done.
    split; [|split; [|done]]; cbn; repeat case_match; try done; lia.
  - split; [done|]. split; [now rewrite <- app_assoc|].
    change (cs ++ [acquisition_call; Schedule.CLog LInfo executed; Schedule.CValue])
      with (cs ++ [acquisition_call] ++ [Schedule.CLog LInfo executed; Schedule.CValue]).
    rewrite !count_occ_app, !Hacq by done.
    split; [|split; [|done]]; cbn; repeat case_match; try done; lia.
Qed.

(** C8 (amended). While the shared locker is not initialised the guarded
    method asks for no lock at all and raises an error.  With the locker
    initialised it asks for the lock exactly once: by [waitLock] when
    [waitLockInterval] or [waitLockTimeOut] is truthy (given and not 0), by a
    single [lock] otherwise; that acquisition never raises.  When it fails,
    the method logs a warning that names the lock and the method, and returns
    [undefined]: the decorated method is not called and no release is made. *)
Theorem guarded_acquisition (G : Schedule.ScheduleLockerInterface S) (s : S)
        (cs : list Schedule.Call) :
  let r := run_on G (s, cs) in
  (Schedule.locker G = None ->
   r = (Raise (Error (Schedule.not_executed name methodName)), (s, cs))) /\
  (Schedule.locker G = Some L ->
   (exists b, (acquire s).1 = Return b) /\
   (exists rest,
       r.2.2 = cs ++ acquisition_call :: rest /\
       List.filter is_acquisition rest = []) /\
   ((acquire s).1 = Return false ->
    r.1 = Return None /\
    r.2.1 = logger LWarn not_executed (acquire s).2 /\
    last r.2.2 = Some (Schedule.CLog LWarn not_executed) /\
    count_occ Schedule.Call_eq_dec r.2.2 Schedule.CValue
    = count_occ Schedule.Call_eq_dec cs Schedule.CValue /\
    count_occ Schedule.Call_eq_dec r.2.2 (Schedule.CUnLock name)
    = count_occ Schedule.Call_eq_dec cs (Schedule.CUnLock name))).
Proof.
  intros r. subst r. destruct G as [[L'|]].
  2:{ split; [intros _; reflexivity|discriminate]. }
  split; [discriminate|]. cbn [Schedule.locker]. intros [= ->].
  split; [apply acquire_never_raises|].
  assert (forall errs, Forall (fun c => exists er, c = Schedule.CLog LError (LogErr er)) errs ->
                       List.filter is_acquisition errs = [] /\
                       (forall c, (forall er, c <> Schedule.CLog LError (LogErr er)) ->
                                  count_occ Schedule.Call_eq_dec errs c = 0)) as Herrs.
  { induction 1 as [|c errs (er & ->) _ [IH1 IH2]].
    { split; [done|]. intros c _. reflexivity. }
    split; [exact IH1|].
    intros c Hc. rewrite count_occ_cons_neq; [now apply IH2|].
    intros <-. now apply (Hc er). }
  assert (forall c, is_acquisition c = false ->
                    count_occ Schedule.Call_eq_dec [acquisition_call] c = 0) as Hacq.
  { intros c Hc. cbn. destruct (truthy waitLockInterval || truthy waitLockTimeOut);
      destruct (Schedule.Call_eq_dec _ c) as [<-|]; done. }
  destruct (acquire_never_raises s) as [b Hb].
  destruct (acquire s) as [o s1] eqn:Ha. cbn in Hb. subst o. destruct b.
  - split; [|done]. rewrite (run_acquired s s1 cs Ha). cbv zeta.
    destruct (Schedule.unLock L) as [u|]; [destruct (u name _).1|]; cbn [fst snd];
      rewrite <- ?app_assoc; eexists; (split; [reflexivity|reflexivity]).
  - destruct (run_not_acquired s s1 cs Ha) as (errs & -> & Hf).
    destruct (Herrs errs Hf) as [He1 He2]. cbn [fst snd]. split.
    + eexists. split; [reflexivity|]. now rewrite List.filter_app, He1.
    + intros _. split; [done|]. split; [done|].
      split; [|split].
      * change (cs ++ acquisition_call :: errs ++ [Schedule.CLog LWarn not_executed])
          with (cs ++ (acquisition_call :: errs) ++ [Schedule.CLog LWarn not_executed]).
        now rewrite !app_assoc, last_snoc.
      * change (acquisition_call :: errs ++ [Schedule.CLog LWarn not_executed])
          with ([acquisition_call] ++ errs ++ [Schedule.CLog LWarn not_executed]).
        rewrite !count_occ_app, Hacq, He2 by done. cbn. lia.
      * change (acquisition_call :: errs ++ [Schedule.CLog LWarn not_executed])
          with ([acquisition_call] ++ errs ++ [Schedule.CLog LWarn not_executed]).
        rewrite !count_occ_app, Hacq, He2 by done. cbn. lia.
Qed.

(** C10. While the shared locker is not initialised ([ScheduleLocker.locker]
    is null), the guarded method raises an error that names the lock and the
    method; it calls neither the locker nor the decorated method and logs
    nothing: this is a thrown error, not the skip of a failed acquisition. *)
Theorem guarded_uninitialised (s : S) (cs : list Schedule.Call) :
  run_on (Schedule.mkScheduleLocker None) (s, cs)
  = (Raise (Error (Schedule.not_executed name methodName)), (s, cs)).
Proof. reflexivity. Qed.

End Decorator_claims.

(** ** The properties on concrete runs *)

Section Runs.
Import Scenario.

(** Replica A holds "job"; its record expires; replica B takes the key;
    the late release of A leaves the record of B in place. *)
Lemma unLock_deletes_only_own_token_witness :
  redis (Locker.unLock env_ok "job" A_stale).2.2 = redis A_stale.2.
Proof.
  refine (proj1 (unLock_deletes_only_own_token env_ok "job" A_stale)
                (Locker.mkEntry "000102030405060708090a0b0c0d0e0f" 100 0)
                (Redis.mkRecord "101112131415161718191a1b1c1d1e1f" 250) _ _ _).
  - vm_compute. reflexivity.
  - vm_compute. reflexivity.
  - vm_compute. discriminate.
Defined.

(** C2 (what the code does). On a key that A tracks, [unLock] returns
    [true] when the store holds the token of A (released), when it holds the
    token of B (mismatch) and when it holds nothing (absent): the three
    outcomes of the script cannot be told apart by the caller. *)
Theorem unLock_three_outcomes_one_answer :
  (Locker.unLock env_ok "job" A_holds).1 = Return (Some true) /\
  (Locker.unLock env_ok "job" A_stale).1 = Return (Some true) /\
  (Locker.unLock env_ok "job" (A_holds.1, with_redis ∅ A_holds.2)).1 = Return (Some true).
Proof. repeat split; vm_compute; reflexivity. Qed.

(** C3 as stated fails: A tracks nothing and has no client yet, and its
    [unLock] asks the store for a connection and registers the script. *)
Lemma unLock_untracked_connects :
  Locker.lockMap A !! "app:job" = None /\
  (Locker.unLock env_ok "job" (A, w0)).1 = Return None /\
  trace (Locker.unLock env_ok "job" (A, w0)).2.2
  = [EvGetConnection; EvDefineCommand 0 "lua_unlock"].
Proof. repeat split; vm_compute; reflexivity. Qed.

Lemma unLock_untracked_witness :
  (Locker.unLock env_ok "job" (A, w0)).1 = Return None /\
  redis (Locker.unLock env_ok "job" (A, w0)).2.2 = redis w0.
Proof.
  pose proof (unLock_untracked env_ok "job" (A, w0) eq_refl) as (H1 & H2 & _).
  exact (conj H1 H2).
Defined.

(** C4 as stated fails: A tracks "job", the release command fails on the
    wire, and the entry is still in [lockMap] when [unLock] returns. *)
Lemma unLock_store_error_keeps_entry :
  (Locker.unLock env_down "job" A_holds).1 = Return (Some false) /\
  Locker.lockMap (Locker.unLock env_down "job" A_holds).2.1 !! "app:job"
  = Some (Locker.mkEntry "000102030405060708090a0b0c0d0e0f" 100 0).
Proof. split; vm_compute; reflexivity. Qed.

Lemma unLock_tracked_witness :
  (Locker.unLock env_ok "job" A_stale).1 = Return (Some true) /\
  Locker.lockMap (Locker.unLock env_ok "job" A_stale).2.1 !! "app:job" = None.
Proof.
  pose proof (unLock_tracked env_ok "job" A_stale
                (Locker.mkEntry "000102030405060708090a0b0c0d0e0f" 100 0) eq_refl)
    as (_ & Hsent & _).
  destruct (Hsent 0 eq_refl eq_refl) as (_ & Hdone & _).
  destruct (Hdone eq_refl) as (H1 & _ & H3 & _).
  exact (conj H1 H3).
Defined.

(** A takes the free key: one [SET], the entry and the record. *)
Lemma lock_single_attempt_witness :
  (Locker.lock env_ok "job" (Some 100%Z) (A, w0)).1 = Return true /\
  trace (Locker.lock env_ok "job" (Some 100%Z) (A, w0)).2.2
  = trace (Locker.defineCommand env_ok (A, w0)).2.2
    ++ [EvSet "app:job" "000102030405060708090a0b0c0d0e0f" 100].
Proof.
  pose proof (lock_single_attempt env_ok "job" (Some 100%Z) (A, w0)) as (_ & _ & Hsent & _).
  destruct (Hsent 0 eq_refl) as (H1 & _ & Hok & _).
  destruct (Hok eq_refl eq_refl eq_refl) as (H2 & _).
  exact (conj H2 H1).
Defined.

(** The store cannot be reached: [lock] logs the error, returns [false] and
    sends no [SET]. *)
Lemma lock_without_client_sends_nothing :
  (Locker.lock env_down "job" None (A, w0)).1 = Return false /\
  trace (Locker.lock env_down "job" None (A, w0)).2.2 = [EvGetConnection] /\
  List.filter is_set (trace (Locker.lock env_down "job" None (A, w0)).2.2) = [].
Proof. repeat split; vm_compute; reflexivity. Qed.

(** C6 as stated fails: with [waitTime] 0 the elapsed time, 0, does not
    exceed it, a [lock] would succeed, and yet [waitLock] returns [false]
    without a single attempt. *)
Lemma waitLock_zero_wait_no_attempt :
  (Locker.lock env_ok "job" None (A, w0)).1 = Return true /\
  Locker.waitLock env_ok "job" None None (Some 0%Z) (A, w0)
  = (Return false, (A, log_write LError (LogStr "waitLock timeout") w0)) /\
  (clock (Locker.waitLock env_ok "job" None None (Some 0%Z) (A, w0)).2.2 - clock w0 = 0)%Z.
Proof. repeat split; vm_compute; reflexivity. Qed.

(** B waits for the key that A holds for 100 ms: the loop ends well within
    the turns given to it. *)
Lemma waitLock_polls_witness :
  Locker.waitLock_fuel env_ok 1000 "job" (Some 100%Z) None (Some 300%Z) (B, A_holds.2)
  = Some (Locker.waitLock env_ok "job" (Some 100%Z) None (Some 300%Z) (B, A_holds.2)).
Proof.
  apply (proj1 (waitLock_polls env_ok "job" (Some 100%Z) None (Some 300%Z) (B, A_holds.2))).
  unfold Locker.waitLock_turns. cbn. lia.
Defined.

(** The decorated method throws: the lock is released and the caller sees
    that error. *)
Lemma guarded_release_once_witness :
  (Schedule.run Schedule.Locker_logger "job" (Some 100%Z) None None "m" throws
                (shared env_ok) ((A, w0), [])).1 = Raise boom /\
  (Schedule.run Schedule.Locker_logger "job" (Some 100%Z) None None "m" throws
                (shared env_ok) ((A, w0), [])).2.2
  = [Schedule.CLock "job" (Some 100%Z);
     Schedule.CLog LInfo (LogStr "The locker 'job' executed.");
     Schedule.CValue; Schedule.CUnLock "job"].
Proof.
  assert (Schedule.acquire Schedule.Locker_logger "job" (Some 100%Z) None None
                           (Schedule.Locker_interface env_ok) (A, w0)
          = (Return true, A_holds)) as Ha by (vm_compute; reflexivity).
  pose proof (guarded_release_once Schedule.Locker_logger "job" (Some 100%Z) None None "m"
                throws (Schedule.Locker_interface env_ok) (Locker.unLock env_ok)
                (A, w0) A_holds [] eq_refl Ha) as (H1 & H2 & _).
  split; [exact H1|]. refine (eq_trans H2 _). vm_compute. reflexivity.
Defined.

(** C8 as stated fails: the shared locker is not initialised, both
    intervals are given, and the guarded method asks for no lock: it raises an
    error, with no call made and nothing logged. *)
Lemma guarded_uninitialised_no_acquisition :
  Schedule.run Schedule.Locker_logger "job" (Some 100%Z) (Some 50%Z) (Some 1000%Z) "m" returns7
               not_initialised ((A, w0), [])
  = (Raise (Error "Cache lock 'job' acquisition failed. The method m is not executed."),
     ((A, w0), [])).
Proof. vm_compute. reflexivity. Qed.

(** With a locker in place, intervals given as 0 are not truthy: the lock is
    asked for by a single [lock]. *)
Lemma guarded_zero_intervals_single_lock :
  (Schedule.run Schedule.Locker_logger "job" (Some 100%Z) (Some 0%Z) (Some 0%Z) "m" returns7
                (shared env_ok) ((A, w0), [])).2.2
  = [Schedule.CLock "job" (Some 100%Z);
     Schedule.CLog LInfo (LogStr "The locker 'job' executed.");
     Schedule.CValue; Schedule.CUnLock "job"].
Proof. vm_compute. reflexivity. Qed.

Lemma guarded_acquisition_witness :
  (Schedule.run Schedule.Locker_logger "job" (Some 100%Z) (Some 10%Z) (Some 0%Z) "m" returns7
                (shared env_ok) ((A, w0), [])).1 = Return None.
Proof.
  pose proof (proj2 (guarded_acquisition Schedule.Locker_logger "job" (Some 100%Z)
                       (Some 10%Z) (Some 0%Z) "m" returns7 (Schedule.Locker_interface env_ok)
                       (shared env_ok) (A, w0) []) eq_refl) as (_ & _ & Hskip).
  refine (proj1 (Hskip _)). vm_compute. reflexivity.
Defined.

Lemma A_holds_reachable : reachable env_ok A_holds.
Proof.
  exists (Locker.mkOptions "app:"), 0%Z, ∅. apply rtc_once.
  exact (step_lock env_ok "job" (Some 100%Z) (A, w0)).
Defined.

(** A holds a ready client: asking again returns it and changes nothing;
    the script is registered once on it. *)
Lemma defineCommand_idempotent_witness :
  Locker.defineCommand env_ok A_holds = (Return (Some 0), A_holds) /\
  registrations 0 (Locker.defineCommand env_ok A_holds).2.2 = 1.
Proof.
  pose proof (defineCommand_idempotent env_ok A_holds A_holds_reachable)
    as (H1 & _ & _ & _ & H5).
  split.
  - rewrite H1 by (vm_compute; reflexivity). vm_compute. reflexivity.
  - apply (H5 0). vm_compute. reflexivity.
Defined.

End Runs.

(** ** Acquire and release together *)

Section Lock_outcomes.
Variable env : Env.

Lemma prefixed_inj (prefix a b : string) : prefix +:+ a = prefix +:+ b -> a = b.
Proof. induction prefix as [|c prefix IH]; cbn; [done|]. intros [= H]. auto. Qed.

Lemma sets_sent_app (tr evs : list Event) : sets_sent (tr ++ evs) = sets_sent tr + sets_sent evs.
Proof. unfold sets_sent. now rewrite List.filter_app, length_app. Qed.

(** What an acquisition that succeeded has done. *)
Lemma lock_true (key : string) (expire : option Z) (s : Locker.St) :
  (Locker.lock env key expire s).1 = Return true ->
  let k := Locker.key_prefix (Locker.options s.1) +:+ key in
  let px := default 10000%Z expire in
  let token := Hex.toString (map (csprng env) (seq (drawn s.2) 16)) in
  let s' := (Locker.lock env key expire s).2 in
  (0 < px)%Z /\
  Redis.get (clock s'.2) (redis s.2) k = None /\
  Locker.lockMap s'.1 = <[k := Locker.mkEntry token px (clock s'.2)]> (Locker.lockMap s.1) /\
  redis s'.2 = <[k := Redis.mkRecord token (clock s'.2 + px)]> (redis s.2) /\
  Locker.options s'.1 = Locker.options s.1.
Proof.
  destruct (Locker.defineCommand env s) as [o s1] eqn:Hd.
  destruct (defineCommand_frame env _ _ _ Hd) as ((c & -> & _) & _ & Ho & _).
  rewrite (lock_eval env _ _ _ _ _ Hd). cbv zeta.
  destruct c as [cid|]; [|discriminate].
  destruct (transport env (length (trace s1.2))); [discriminate|].
  destruct (default 10000%Z expire <=? 0)%Z eqn:Hpx; [discriminate|].
  apply Z.leb_gt in Hpx.
  destruct (Redis.get _ _ _) eqn:Hg; [discriminate|]. intros _. cbn in *.
  rewrite Hg. done.
Qed.

(** An acquisition that failed has changed neither the key space nor
    [lockMap]. *)
Lemma lock_false (key : string) (expire : option Z) (s : Locker.St) :
  (Locker.lock env key expire s).1 = Return false ->
  redis (Locker.lock env key expire s).2.2 = redis s.2 /\
  Locker.lockMap (Locker.lock env key expire s).2.1 = Locker.lockMap s.1.
Proof.
  destruct (Locker.defineCommand env s) as [o s1] eqn:Hd.
  destruct (defineCommand_frame env _ _ _ Hd) as ((c & -> & _) & Hm & _ & Hr & _).
  rewrite (lock_eval env _ _ _ _ _ Hd). cbv zeta.
  repeat case_match; try discriminate; intros _; cbn; done.
Qed.

Lemma lock_options (key : string) (expire : option Z) (s : Locker.St) :
  Locker.options (Locker.lock env key expire s).2.1 = Locker.options s.1.
Proof.
  destruct (Locker.defineCommand env s) as [o s1] eqn:Hd.
  destruct (defineCommand_frame env _ _ _ Hd) as ((c & -> & _) & _ & Ho & _).
  rewrite (lock_eval env _ _ _ _ _ Hd). cbv zeta.
  repeat case_match; cbn; done.
Qed.

Lemma lock_sets_sent (key : string) (expire : option Z) (s : Locker.St) :
  sets_sent (trace (Locker.lock env key expire s).2.2) <= sets_sent (trace s.2) + 1.
Proof.
  destruct (Locker.defineCommand env s) as [o s1] eqn:Hd.
  destruct (defineCommand_frame env _ _ _ Hd)
    as ((c & -> & _) & _ & _ & _ & _ & _ & (evs & Ht & Hf & _) & _).
  assert (sets_sent evs = 0) as Hs.
  { unfold sets_sent. clear -Hf. induction evs as [|ev evs IH]; [done|].
    cbn in Hf |- *. destruct ev; cbn in *; try done; auto. }
  rewrite (lock_eval env _ _ _ _ _ Hd). cbv zeta.
  repeat case_match; cbn -[sets_sent]; rewrite Ht, !sets_sent_app, Hs; cbn; lia.
Qed.

(** While the store holds a record for the key that has not expired when the
    call returns, [lock] is refused, whoever asks: it returns [false] and
    changes neither the key space nor [lockMap]. *)
Theorem lock_refused_while_held (key : string) (expire : option Z) (s : Locker.St)
        (r : Redis.LockRecord) :
  let k := Locker.key_prefix (Locker.options s.1) +:+ key in
  let s' := (Locker.lock env key expire s).2 in
  redis s.2 !! k = Some r ->
  (clock s'.2 < Redis.rec_deadline r)%Z ->
  (Locker.lock env key expire s).1 = Return false /\
  redis s'.2 = redis s.2 /\
  Locker.lockMap s'.1 = Locker.lockMap s.1.
Proof.
  intros k s' Hr Hlive.
  destruct (lock_never_raises env key expire s) as [[|] Hb].
  - apply lock_true in Hb as (_ & Hg & _). fold k s' in Hg.
    unfold Redis.get in Hg. rewrite Hr in Hg.
    apply Z.ltb_lt in Hlive. now rewrite Hlive in Hg.
  - split; [exact Hb|]. now apply lock_false.
Qed.



(** The time to live is the safety net: once the record of a holder has
    expired when the command arrives, a locker with a ready client whose
    command goes through acquires the key, whatever the old record held: it
    returns [true] and holds the lock with its own new token. *)
Theorem lock_after_expiry (key : string) (expire : option Z) (s : Locker.St) :
  let k := Locker.key_prefix (Locker.options s.1) +:+ key in
  let arrival := (clock s.2 + Z.of_nat (latency env (length (trace s.2))))%Z in
  let token := Hex.toString (map (csprng env) (seq (drawn s.2) 16)) in
  healthy s = true ->
  transport env (length (trace s.2)) = None ->
  (0 < default 10000%Z expire)%Z ->
  (forall r, redis s.2 !! k = Some r -> (Redis.rec_deadline r <= arrival)%Z) ->
  (Locker.lock env key expire s).1 = Return true /\
  holds (Locker.lock env key expire s).2 k /\
  (exists r, redis (Locker.lock env key expire s).2.2 !! k = Some r /\
             Redis.rec_value r = token).
Proof.
  intros k arrival token Hh Ht Hpx Hexp.
  pose proof (defineCommand_healthy env s Hh) as Hd.
  rewrite (lock_eval env _ _ _ _ _ Hd). cbv zeta. fold k token.
  assert (exists cid, Locker.client s.1 = Some cid) as [cid ->].
  { unfold healthy in Hh. destruct (Locker.client s.1); [eauto|done]. }
  change (trace (with_drawn ?n ?x)) with (trace x).
  rewrite Ht. apply Z.leb_gt in Hpx. rewrite Hpx.
  assert (Redis.get arrival (redis s.2) k = None) as Hg.
  { unfold Redis.get. destruct (redis s.2 !! k) as [r|] eqn:Hr; [|done].
    specialize (Hexp r eq_refl). apply Z.ltb_ge in Hexp. now rewrite Hexp. }
  change (clock (request env ?ev (with_drawn ?m ?x)))
    with (clock x + Z.of_nat (latency env (length (trace x))))%Z.
  fold arrival. rewrite Hg. apply Z.leb_gt in Hpx.
  cbn [fst snd]. split; [done|]. split.
  - unfold holds. cbn [fst snd Locker.lockMap Locker.with_lockMap redis with_redis].
    eexists _, _. rewrite !lookup_insert_eq. cbn. done.
  - cbn [redis with_redis]. eexists. rewrite lookup_insert_eq. done.
Qed.

End Lock_outcomes.

Section Release_outcomes.
Variable env : Env.

(** What [unLock] does to the object, whatever happens. *)
Lemma unLock_object (key : string) (s : Locker.St) :
  let k := Locker.key_prefix (Locker.options s.1) +:+ key in
  let r := Locker.unLock env key s in
  Locker.options r.2.1 = Locker.options s.1 /\
  (r.1 = Return (Some true) -> Locker.lockMap r.2.1 = delete k (Locker.lockMap s.1)) /\
  (r.1 <> Return (Some true) -> Locker.lockMap r.2.1 = Locker.lockMap s.1).
Proof.
  intros k r. subst r.
  destruct (Locker.defineCommand env s) as [o s1] eqn:Hd.
  destruct (defineCommand_frame env _ _ _ Hd) as ((c & -> & _) & Hm & Ho & _).
  rewrite (unLock_eval env key _ _ _ Hd). cbv zeta. fold k.
  repeat case_match; cbn; rewrite ?Hm; done.
Qed.

(** What [unLock] does to the key space, whatever happens. *)
Lemma unLock_store (key : string) (s : Locker.St) :
  let k := Locker.key_prefix (Locker.options s.1) +:+ key in
  redis (Locker.unLock env key s).2.2 = redis s.2 \/
  redis (Locker.unLock env key s).2.2 = delete k (redis s.2).
Proof.
  intros k.
  destruct (Locker.defineCommand env s) as [o s1] eqn:Hd.
  destruct (defineCommand_frame env _ _ _ Hd) as ((c & -> & _) & _ & _ & Hr & _).
  rewrite (unLock_eval env key _ _ _ Hd). cbv zeta. fold k.
  destruct (Locker.lockMap s.1 !! k) as [e|]; [|now left].
  destruct c as [cid|]; [|now left].
  destruct (Locker.has_lua_unlock cid s1.2); [|now left].
  destruct (transport env (length (trace s1.2))); [now left|].
  cbn [fst snd]. change (redis (with_redis ?d _)) with d.
  change (redis (request env ?ev ?w)) with (redis w). rewrite Hr.
  match goal with
  | |- context [Redis.lua_unlock_script ?t ?d ?k ?v] =>
      destruct (lua_unlock_script_effect t d k v) as [->|(r & _ & _ & ->)]
  end; [now left|now right].
Qed.

(** Acquire, then release: after an acquisition that succeeded, a release
    made while the client is ready, whose command goes through and arrives
    before the [expire] ms have passed, returns [true], removes the record
    from the store and the entry from [lockMap]: both are as if the key had
    never been taken. *)
Theorem lock_then_unLock (key : string) (expire : option Z) (s : Locker.St) :
  reachable env s ->
  (Locker.lock env key expire s).1 = Return true ->
  let k := Locker.key_prefix (Locker.options s.1) +:+ key in
  let s1 := (Locker.lock env key expire s).2 in
  healthy s1 = true ->
  transport env (length (trace s1.2)) = None ->
  (Z.of_nat (latency env (length (trace s1.2))) < default 10000%Z expire)%Z ->
  let r := Locker.unLock env key s1 in
  r.1 = Return (Some true) /\
  redis r.2.2 = delete k (redis s.2) /\
  Locker.lockMap r.2.1 = delete k (Locker.lockMap s.1) /\
  redis r.2.2 !! k = None /\
  Locker.lockMap r.2.1 !! k = None.
Proof.
  intros Hreach Hb k s1 Hh Ht Hlat r.
  pose proof (lock_registered_once env key expire s (reachable_registered_once env s Hreach))
    as [_ Hreg]. fold s1 in Hreg.
  apply lock_true in Hb as (_ & _ & Hm & Hr & Ho). fold k s1 in Hm, Hr, Ho.
  pose proof (defineCommand_healthy env s1 Hh) as Hd.
  assert (exists cid, Locker.client s1.1 = Some cid) as [cid Hc].
  { unfold healthy in Hh. destruct (Locker.client s1.1); [eauto|done]. }
  assert (r = (Return (Some true),
               (Locker.with_lockMap (delete k (Locker.lockMap s1.1)) s1.1,
                with_redis (delete k (redis s1.2))
                           (request env (EvLuaUnlock k
                              (Hex.toString (map (csprng env) (seq (drawn s.2) 16)))) s1.2))))
    as Hres.
  { subst r. rewrite (unLock_eval env key _ _ _ Hd). cbv zeta. rewrite Ho. fold k.
    rewrite Hm, lookup_insert_eq, Hc, (Hreg cid Hc), Ht. cbn [Locker.value].
    do 3 f_equal. unfold Redis.lua_unlock_script, Redis.get, Redis.del, Redis.get.
    change (redis (request env ?ev ?w)) with (redis w).
    rewrite Hr, lookup_insert_eq. cbn [Redis.rec_deadline Redis.rec_value].
    change (clock (request env ?ev ?w))
      with (clock w + Z.of_nat (latency env (length (trace w))))%Z.
    assert ((clock s1.2 + Z.of_nat (latency env (length (trace s1.2)))
             <? clock s1.2 + default 10000%Z expire)%Z = true) as -> by (apply Z.ltb_lt; lia).
    now rewrite String.eqb_refl. }
  rewrite Hres. cbn [fst snd redis with_redis Locker.lockMap Locker.with_lockMap].
  rewrite Hm, Hr, !delete_insert_eq, !lookup_delete_eq. done.
Qed.

(** Release twice: after a release that returned [true], the next release of
    the same key returns [null] and leaves the key space alone. *)
Theorem unLock_twice_second_untracked (key : string) (s : Locker.St) :
  (Locker.unLock env key s).1 = Return (Some true) ->
  let s1 := (Locker.unLock env key s).2 in
  (Locker.unLock env key s1).1 = Return None /\
  redis (Locker.unLock env key s1).2.2 = redis s1.2 /\
  Locker.lockMap (Locker.unLock env key s1).2.1 = Locker.lockMap s1.1.
Proof.
  intros Hb s1.
  destruct (unLock_object key s) as (Ho & Hm & _). specialize (Hm Hb). fold s1 in Ho, Hm.
  destruct (Locker.defineCommand env s1) as [o s2] eqn:Hd.
  destruct (defineCommand_frame env _ _ _ Hd) as ((c & -> & _) & Hm2 & _ & Hr2 & _).
  rewrite (unLock_eval env key _ _ _ Hd). cbv zeta.
  rewrite Ho, Hm, lookup_delete_eq. cbn [fst snd]. rewrite Hm2, Hm. done.
Qed.

(** Two different keys never interact: [lock] and [unLock] of one key leave
    the record and the entry of every other key as they were. *)
Theorem other_keys_untouched (key key' : string) (expire : option Z) (s : Locker.St) :
  key <> key' ->
  let k' := Locker.key_prefix (Locker.options s.1) +:+ key' in
  (redis (Locker.lock env key expire s).2.2 !! k' = redis s.2 !! k' /\
   Locker.lockMap (Locker.lock env key expire s).2.1 !! k' = Locker.lockMap s.1 !! k') /\
  (redis (Locker.unLock env key s).2.2 !! k' = redis s.2 !! k' /\
   Locker.lockMap (Locker.unLock env key s).2.1 !! k' = Locker.lockMap s.1 !! k').
Proof.
  intros Hne k'.
  assert (Locker.key_prefix (Locker.options s.1) +:+ key <> k') as Hk.
  { intros H. apply prefixed_inj in H. done. }
  split.
  - destruct (lock_never_raises env key expire s) as [[|] Hb].
    + apply lock_true in Hb as (_ & _ & -> & -> & _). now rewrite !lookup_insert_ne.
    + apply lock_false in Hb as [-> ->]. done.
  - split.
    + destruct (unLock_store key s) as [->| ->]; [done|]. now rewrite lookup_delete_ne.
    + destruct (unLock_object key s) as (_ & Ht & Hf).
      destruct (unLock_never_raises env key s) as [[[|]|] Hb].
      * rewrite (Ht Hb). now rewrite lookup_delete_ne.
      * rewrite Hf; [done|]. now rewrite Hb.
      * rewrite Hf; [done|]. now rewrite Hb.
Qed.

(** In every state the process can reach, a release of a tracked key that
    obtains a client does send the release script with the recorded token: the
    client the locker holds always has the script. *)
Theorem unLock_sends_script_when_connected (key : string) (s : Locker.St)
        (e : Locker.Entry) (cid : nat) :
  let k := Locker.key_prefix (Locker.options s.1) +:+ key in
  reachable env s ->
  Locker.lockMap s.1 !! k = Some e ->
  (Locker.defineCommand env s).1 = Return (Some cid) ->
  last (trace (Locker.unLock env key s).2.2) = Some (EvLuaUnlock k (Locker.value e)).
Proof.
  intros k Hreach Hk Hc.
  pose proof (defineCommand_registered_once env s (reachable_registered_once env s Hreach))
    as [_ Hreg].
  destruct (Locker.defineCommand env s) as [o s1] eqn:Hd. cbn [fst snd] in *. subst o.
  destruct (defineCommand_frame env _ _ _ Hd) as ((c & [= <-] & [|Hcl]) & _); [done|].
  rewrite (unLock_eval env key _ _ _ Hd). cbv zeta. fold k. rewrite Hk.
  rewrite (Hreg cid (eq_sym Hcl)).
  destruct (transport env (length (trace s1.2))); cbn; now rewrite last_snoc.
Qed.

End Release_outcomes.

Section WaitLock_outcomes.
Variable env : Env.

(** The run of [waitLock]: some turns that fail, then one of the two ends. *)
Lemma waitLock_run (key : string) (expire interval waitTime : option Z) (s : Locker.St) :
  let i := default 50%Z interval in
  let wt := default 15000%Z waitTime in
  let r := Locker.waitLock env key expire interval waitTime s in
  exists n : nat,
    (forall j, j < n ->
               (clock (poll_state env key expire i j s).2 - clock s.2 < wt)%Z /\
               (Locker.lock env key expire (poll_state env key expire i j s)).1 = Return false) /\
    let sn := poll_state env key expire i n s in
    (((clock sn.2 - clock s.2 < wt)%Z /\
      (Locker.lock env key expire sn).1 = Return true /\
      r = (Return true, (Locker.lock env key expire sn).2))
     \/
     ((wt <= clock sn.2 - clock s.2)%Z /\
      r = (Return false, (sn.1, log_write LError (LogStr "waitLock timeout") sn.2)))).
Proof.
  intros i wt r.
  destruct (waitLock_loop_spec env key expire i wt (clock s.2) (Locker.waitLock_turns waitTime) s)
    as (n & _ & Hfail & Hend).
  { unfold Locker.waitLock_turns. fold wt. lia. }
  exists n. split.
  { intros j Hj. destruct (Hfail j Hj) as (H1 & H2 & _). done. }
  cbv zeta in Hend. subst r. unfold Locker.waitLock, Locker.waitLock_fuel. fold i wt.
  destruct Hend as [(H1 & H2 & ->)|(H1 & ->)]; [left|right]; done.
Qed.

Lemma failed_turn_frame (key : string) (expire : option Z) (interval : Z) (s : Locker.St) :
  let s2 := failed_turn env key expire interval s in
  Locker.options s2.1 = Locker.options s.1 /\
  sets_sent (trace s2.2) <= sets_sent (trace s.2) + 1 /\
  (clock s.2 + timer_ms interval <= clock s2.2)%Z /\
  ((Locker.lock env key expire s).1 = Return false ->
   redis s2.2 = redis s.2 /\ Locker.lockMap s2.1 = Locker.lockMap s.1).
Proof.
  intros s2.
  pose proof (failed_turn_effect env key expire interval s) as (Htr & Hclk & _).
  pose proof (lock_clock_mono env key expire s) as Hmono.
  pose proof (lock_sets_sent env key expire s) as Hsets.
  pose proof (lock_options env key expire s) as Hopt.
  fold s2 in Htr, Hclk. split; [exact Hopt|]. split; [|split; [lia|]].
  - rewrite Htr, sets_sent_app. cbn. lia.
  - intros Hb. apply lock_false in Hb as [Hr Hm]. split; [exact Hr|exact Hm].
Qed.

Lemma poll_state_frame (key : string) (expire : option Z) (interval : Z) (n : nat) :
  forall s : Locker.St,
    let sn := poll_state env key expire interval n s in
    Locker.options sn.1 = Locker.options s.1 /\
    sets_sent (trace sn.2) <= sets_sent (trace s.2) + n /\
    (clock s.2 + Z.of_nat n * timer_ms interval <= clock sn.2)%Z /\
    ((forall j, j < n ->
                (Locker.lock env key expire (poll_state env key expire interval j s)).1
                = Return false) ->
     redis sn.2 = redis s.2 /\ Locker.lockMap sn.1 = Locker.lockMap s.1).
Proof.
  induction n as [|n IH]; intros s; cbn [poll_state].
  { repeat split; lia. }
  destruct (failed_turn_frame key expire interval s) as (Ho & Hs & Hc & Hf).
  destruct (IH (failed_turn env key expire interval s)) as (Ho' & Hs' & Hc' & Hf').
  split; [congruence|]. split; [lia|]. split; [lia|].
  intros Hall. destruct (Hf (Hall 0 ltac:(lia))) as [Hr Hm].
  destruct Hf' as [Hr' Hm'].
  { intros j Hj. exact (Hall (S j) ltac:(lia)). }
  split; congruence.
Qed.


(** When [waitLock] returns [false] the time it was given has passed, and it
    leaves nothing behind: the key space and [lockMap] are as they were. *)
Theorem waitLock_timeout_changes_nothing (key : string) (expire interval waitTime : option Z)
        (s : Locker.St) :
  let r := Locker.waitLock env key expire interval waitTime s in
  r.1 = Return false ->
  (default 15000%Z waitTime <= clock r.2.2 - clock s.2)%Z /\
  redis r.2.2 = redis s.2 /\
  Locker.lockMap r.2.1 = Locker.lockMap s.1 /\
  last (log r.2.2) = Some (LError, LogStr "waitLock timeout").
Proof.
  intros r Hb. subst r.
  destruct (waitLock_run key expire interval waitTime s)
    as (n & Hfail & [(_ & _ & Hr)|(Hclk & Hr)]);
    rewrite Hr in Hb |- *; [discriminate|].
  cbn [fst snd].
  destruct (poll_state_frame key expire (default 50%Z interval) n s) as (_ & _ & _ & Hf).
  destruct Hf as [Hrd Hm]; [intros j Hj; now destruct (Hfail j Hj)|].
  split; [exact Hclk|]. split; [exact Hrd|]. split; [exact Hm|].
  cbn. now rewrite last_snoc.
Qed.

(** The load [waitLock] puts on the store is bounded: with [T] the pause of
    one turn (the interval as the timer reads it), the [SET] commands it sends
    number fewer than [waitTime / T + 1]. *)
Theorem waitLock_set_budget (key : string) (expire interval waitTime : option Z)
        (s : Locker.St) :
  let T := timer_ms (default 50%Z interval) in
  let wt := default 15000%Z waitTime in
  let r := Locker.waitLock env key expire interval waitTime s in
  sets_sent (trace s.2) <= sets_sent (trace r.2.2) /\
  (Z.of_nat (sets_sent (trace r.2.2) - sets_sent (trace s.2)) * T < Z.max 0 wt + T)%Z.
Proof.
  intros T wt r. subst r.
  pose proof (timer_ms_pos (default 50%Z interval)) as HT. fold T in HT.
  assert (forall m, sets_sent (trace s.2)
                    <= sets_sent (trace (poll_state env key expire (default 50%Z interval) m s).2))
    as Hgrow.
  { intros m. revert s. induction m as [|m IH]; intros s; cbn [poll_state]; [lia|].
    etransitivity; [|apply IH].
    pose proof (failed_turn_effect env key expire (default 50%Z interval) s) as (Htr & _).
    cbv zeta in Htr. rewrite Htr, sets_sent_app.
    destruct (Locker.defineCommand env s) as [o s1] eqn:Hd.
    destruct (defineCommand_frame env _ _ _ Hd)
      as ((c & -> & _) & _ & _ & _ & _ & _ & (evs & Ht & _) & _).
    rewrite (lock_eval env _ _ _ _ _ Hd). cbv zeta.
    repeat case_match; cbn -[sets_sent]; rewrite Ht, !sets_sent_app; lia. }
  destruct (waitLock_run key expire interval waitTime s)
    as (n & Hfail & [(Hclk & _ & ->)|(Hclk & ->)]); cbn [fst snd];
    destruct (poll_state_frame key expire (default 50%Z interval) n s) as (_ & Hs & Hc & _);
    specialize (Hgrow n); fold T wt in Hc, Hclk |- *.
  - pose proof (lock_sets_sent env key expire
                  (poll_state env key expire (default 50%Z interval) n s)) as Hl.
    assert (sets_sent (trace (poll_state env key expire (default 50%Z interval) n s).2)
            <= sets_sent (trace (Locker.lock env key expire
                   (poll_state env key expire (default 50%Z interval) n s)).2.2)) as Hl'.
    { set (sn := poll_state _ _ _ _ _ _).
      destruct (Locker.defineCommand env sn) as [o s1] eqn:Hd.
      destruct (defineCommand_frame env _ _ _ Hd)
        as ((c & -> & _) & _ & _ & _ & _ & _ & (evs & Ht & _) & _).
      rewrite (lock_eval env _ _ _ _ _ Hd). cbv zeta.
      repeat case_match; cbn -[sets_sent]; rewrite Ht, !sets_sent_app; lia. }
    split; [lia|]. nia.
  - change (trace (log_write ?l ?a ?w)) with (trace w). split; [lia|].
    destruct n as [|n]; [rewrite Nat.sub_diag; lia|].
    destruct (Hfail n ltac:(lia)) as [Hn _]. fold wt in Hn.
    destruct (poll_state_frame key expire (default 50%Z interval) n s) as (_ & _ & Hcn & _).
    fold T in Hcn. nia.
Qed.

End WaitLock_outcomes.

(** ** What [lockMap] holds *)

Section Tracked_entries.
Variable env : Env.

Lemma tracked_wf_same (s s' : Locker.St) :
  Locker.lockMap s'.1 = Locker.lockMap s.1 ->
  Locker.options s'.1 = Locker.options s.1 ->
  tracked_wf s -> tracked_wf s'.
Proof. unfold tracked_wf. intros -> ->. done. Qed.

Lemma tracked_wf_defineCommand (s : Locker.St) :
  tracked_wf s -> tracked_wf (Locker.defineCommand env s).2.
Proof.
  destruct (Locker.defineCommand env s) as [o s1] eqn:Hd.
  destruct (defineCommand_frame env _ _ _ Hd) as (_ & Hm & Ho & _).
  now apply tracked_wf_same.
Qed.

Lemma tracked_wf_lock (key : string) (expire : option Z) (s : Locker.St) :
  tracked_wf s -> tracked_wf (Locker.lock env key expire s).2.
Proof.
  intros Hwf. destruct (lock_never_raises env key expire s) as [[|] Hb].
  - apply lock_true in Hb as (_ & _ & Hm & _ & Ho).
    intros k e. rewrite Hm, Ho.
    destruct (decide (Locker.key_prefix (Locker.options s.1) +:+ key = k)) as [<-|Hne].
    + rewrite lookup_insert_eq. intros He. apply (inj Some) in He. subst e.
      split; [eauto|]. exists (map (csprng env) (seq (drawn s.2) 16)).
      split; [|reflexivity]. now rewrite length_map, length_seq.
    + rewrite lookup_insert_ne by done. apply Hwf.
  - pose proof (lock_options env key expire s) as Ho.
    apply lock_false in Hb as [_ Hm]. now apply (tracked_wf_same s).
Qed.

Lemma tracked_wf_unLock (key : string) (s : Locker.St) :
  tracked_wf s -> tracked_wf (Locker.unLock env key s).2.
Proof.
  intros Hwf. destruct (unLock_object env key s) as (Ho & Ht & Hf).
  destruct (unLock_never_raises env key s) as [[[|]|] Hb].
  - intros k e. rewrite (Ht Hb), Ho. intros [_ H]%lookup_delete_Some. now apply Hwf.
  - apply (tracked_wf_same s); [apply Hf; now rewrite Hb|done|done].
  - apply (tracked_wf_same s); [apply Hf; now rewrite Hb|done|done].
Qed.

Lemma tracked_wf_poll_state (key : string) (expire : option Z) (interval : Z) (n : nat) :
  forall s, tracked_wf s -> tracked_wf (poll_state env key expire interval n s).
Proof.
  induction n as [|n IH]; intros s Hwf; [exact Hwf|].
  cbn [poll_state]. apply IH. unfold failed_turn.
  apply (tracked_wf_lock key expire) in Hwf.
  now destruct (Locker.lock env key expire s).2.
Qed.

Lemma tracked_wf_waitLock (key : string) (expire interval waitTime : option Z)
      (s : Locker.St) :
  tracked_wf s -> tracked_wf (Locker.waitLock env key expire interval waitTime s).2.
Proof.
  intros Hwf.
  destruct (waitLock_ends env key expire interval waitTime s)
    as (n & b & s' & _ & -> & [->| ->]); cbn [snd].
  - now apply tracked_wf_lock, tracked_wf_poll_state.
  - pose proof (tracked_wf_poll_state key expire (default 50%Z interval) n s Hwf) as Hn.
    now destruct (poll_state _ _ _ _ _ _).
Qed.

(** In every state the process can reach, every entry of [lockMap] sits
    under a key that starts with the configured prefix and holds as token the
    32 hex digits of 16 bytes. *)
Theorem reachable_entries_prefixed (s : Locker.St) (k : string) (e : Locker.Entry) :
  reachable env s ->
  Locker.lockMap s.1 !! k = Some e ->
  (exists key, k = Locker.key_prefix (Locker.options s.1) +:+ key) /\
  String.length (Locker.value e) = 32 /\
  (exists bytes, length bytes = 16 /\ Hex.parse (Locker.value e) = Some bytes).
Proof.
  intros (opts & t & db & Hrtc) Hk.
  assert (tracked_wf s) as Hwf.
  { eapply (rtc_ind_r (fun x => tracked_wf x) (initial opts t db)); [| |exact Hrtc].
    - intros k0 e0 H0. cbn in H0. now rewrite lookup_empty in H0.
    - intros y z _ Hstep IH.
      destruct Hstep as [x|key expire x|key expire interval waitTime x|key x|cid st x|db' t' x Ht].
      + now apply tracked_wf_defineCommand.
      + now apply tracked_wf_lock.
      + now apply tracked_wf_waitLock.
      + now apply tracked_wf_unLock.
      + exact IH.
      + exact IH. }
  destruct (Hwf k e Hk) as (Hkey & bytes & Hlen & Hval).
  split; [exact Hkey|]. rewrite Hval, hex_toString_length, Hlen.
  split; [reflexivity|]. exists bytes. split; [exact Hlen|apply hex_parse_toString].
Qed.

End Tracked_entries.

(** ** The singleton *)

Section Singleton.
Variable env : Env.

(** [getInstance] is a singleton: once an instance exists, a call without
    [force] returns that very object, with the options and the entries it
    has, and ignores the options it is given. *)
Theorem getInstance_keeps_first (instance : option Locker.t) (opts1 opts2 : Locker.Options)
        (force1 : option bool) :
  let first := Locker.getInstance instance opts1 force1 in
  Locker.getInstance first.2 opts2 None = first /\
  Locker.getInstance first.2 opts2 (Some false) = first /\
  (instance = None \/ force1 = Some true -> first.1 = Locker.new opts1).
Proof.
  intros first. subst first. unfold Locker.getInstance.
  destruct instance as [this|], force1 as [[|]|]; cbn; repeat split; intros [|]; done.
Qed.

(** [getInstance] with [force] starts from nothing: the new object tracks no
    key, so a release through it returns [null] for every key and leaves the
    store alone; what the previous object holds can only expire. *)
Theorem getInstance_force_tracks_nothing (instance : option Locker.t) (opts : Locker.Options)
        (key : string) (w : World) :
  let this := (Locker.getInstance instance opts (Some true)).1 in
  Locker.lockMap this = ∅ /\
  Locker.client this = None /\
  (Locker.unLock env key (this, w)).1 = Return None /\
  redis (Locker.unLock env key (this, w)).2.2 = redis w.
Proof.
  intros this.
  assert (this = Locker.new opts) as -> by (subst this; now destruct instance).
  split; [done|]. split; [done|].
  destruct (Locker.defineCommand env (Locker.new opts, w)) as [o s1] eqn:Hd.
  destruct (defineCommand_frame env _ _ _ Hd) as ((c & -> & _) & _ & _ & Hr & _).
  rewrite (unLock_eval env key _ _ _ Hd). cbv zeta. cbn [fst snd Locker.lockMap Locker.new].
  rewrite lookup_empty. done.
Qed.

End Singleton.

(** ** The name of the lock and the scheduled job *)

Section Names_and_jobs.
Context {S V : Type}.
Variable logger : Level -> LogArg -> S -> S.

(** Without a name of its own, a guarded method gets a lock name that tells
    the methods of one component apart: two methods share it only if they have
    the same name.  Across components it does not: "a_b" with method "c" and
    "a" with method "b_c" get the same lock. *)
Theorem lock_name_per_method (isEmpty : option string -> bool) (name : option string)
        (getIdentifier constructor_name : option string) (m1 m2 : string) :
  (isEmpty name = true ->
   Schedule.lock_name isEmpty name getIdentifier constructor_name m1
   = Schedule.lock_name isEmpty name getIdentifier constructor_name m2 ->
   m1 = m2) /\
  (isEmpty name = true ->
   Schedule.lock_name isEmpty name (Some "a_b") constructor_name "c"
   = Schedule.lock_name isEmpty name (Some "a") constructor_name "b_c").
Proof.
  unfold Schedule.lock_name, Schedule.synthesized_name. split.
  - intros ->. intros [= H]. apply prefixed_inj in H. now apply (prefixed_inj "_") in H.
  - intros ->. reflexivity.
Qed.

Lemma onTick_eval {S' V' : Type} (lg : Level -> LogArg -> S' -> S')
      (identifier method : string) (m : M S' V') (x : S') :
  Schedule.onTick lg identifier method m x =
  match m (lg LInfo (LogStr (Schedule.job_started identifier method)) x) with
  | (Return v, x') => (Return (Some v), x')
  | (Raise e, x') => (Return None, lg LError (LogErr e) x')
  end.
Proof.
  unfold Schedule.onTick. js_run.
  now destruct (m (lg LInfo (LogStr (Schedule.job_started identifier method)) x)) as [[v|e] x'].
Qed.

(** A tick of a scheduled job never fails, whatever the method does.  For a
    guarded method: while the shared locker is not initialised, every tick
    logs the error of the guard and runs nothing; and when the method itself
    raises after the lock was acquired, the job logs that error after the
    release of the lock. *)
Theorem onTick_of_guarded_method (name : string)
        (lockTimeOut waitLockInterval waitLockTimeOut : option Z)
        (identifier methodName : string) (value : M S V)
        (G : Schedule.ScheduleLockerInterface S) (s : S) (cs : list Schedule.Call) :
  let started := Schedule.CLog LInfo (LogStr (Schedule.job_started identifier methodName)) in
  let s0 := logger LInfo (LogStr (Schedule.job_started identifier methodName)) s in
  let job :=
    Schedule.onTick (Schedule.observed_logger logger) identifier methodName
      (Schedule.run logger name lockTimeOut waitLockInterval waitLockTimeOut methodName
                    value G) in
  (exists v, (job (s, cs)).1 = Return v) /\
  (Schedule.locker G = None ->
   job (s, cs)
   = (Return None,
      (logger LError (LogErr (Error (Schedule.not_executed name methodName))) s0,
       cs ++ [started;
              Schedule.CLog LError (LogErr (Error (Schedule.not_executed name methodName)))])))
  /\
  (forall L u s1 e s2,
      Schedule.locker G = Some L ->
      Schedule.unLock L = Some u ->
      Schedule.acquire logger name lockTimeOut waitLockInterval waitLockTimeOut L s0
      = (Return true, s1) ->
      value (logger LInfo (LogStr (Schedule.executed name)) s1) = (Raise e, s2) ->
      (job (s, cs)).1 = Return None /\
      exists acq released,
        is_acquisition acq = true /\
        (released = [] \/ exists er, released = [Schedule.CLog LError (LogErr er)]) /\
        (job (s, cs)).2.2
        = cs ++ [started; acq; Schedule.CLog LInfo (LogStr (Schedule.executed name));
                 Schedule.CValue; Schedule.CUnLock name]
             ++ released ++ [Schedule.CLog LError (LogErr e)]).
Proof.
  intros started s0 job. subst job. rewrite onTick_eval.
  change (Schedule.observed_logger logger LInfo
            (LogStr (Schedule.job_started identifier methodName)) (s, cs))
    with (s0, cs ++ [started]).
  split; [|split].
  - destruct (Schedule.run _ _ _ _ _ _ _ _ _) as [[v|e] s']; eauto.
  - destruct G as [[L|]]; [discriminate|]. intros _.
    unfold Schedule.run, Schedule.descriptor_value, Schedule.observed_ScheduleLocker,
      Schedule.observed_logger.
    cbn [Schedule.locker]. js_run. now rewrite <- app_assoc.
  - intros L u s1 e s2 HG Hu Ha Hv. destruct G as [G]. cbn in HG. subst G.
    rewrite (run_acquired logger name lockTimeOut waitLockInterval waitLockTimeOut methodName
               value L s0 s1 (cs ++ [started]) Ha).
    cbv zeta. rewrite Hu, Hv. cbn [fst snd settled].
    split; [reflexivity|].
    exists (if truthy waitLockInterval || truthy waitLockTimeOut
            then Schedule.CWaitLock name lockTimeOut waitLockInterval waitLockTimeOut
            else Schedule.CLock name lockTimeOut).
    destruct (u name s2).1 as [x|er] eqn:Hrel.
    + exists []. split; [now destruct (truthy _ || truthy _)|]. split; [now left|].
      unfold Schedule.observed_logger. cbn [fst snd]. now rewrite <- !app_assoc.
    + exists [Schedule.CLog LError (LogErr er)].
      split; [now destruct (truthy _ || truthy _)|]. split; [right; eauto|].
      unfold Schedule.observed_logger. cbn [fst snd]. now rewrite <- !app_assoc.
Qed.

End Names_and_jobs.

(** ** Guarded execution on the [Locker] *)

Section Guarded_on_Locker.
Variable env : Env.
Context {V : Type}.

(** Mutual exclusion of guarded methods: while the store holds a record for
    the lock that has not expired when the single [lock] returns, the guarded
    method is skipped: it returns [undefined], the decorated method is not
    called, no release is made and the store is left alone. *)
Theorem guarded_skips_while_held (name methodName : string) (lockTimeOut : option Z)
        (value : M Locker.St V) (s : Locker.St) (cs : list Schedule.Call)
        (r : Redis.LockRecord) :
  let k := Locker.key_prefix (Locker.options s.1) +:+ name in
  let run := Schedule.run Schedule.Locker_logger name lockTimeOut None None methodName value
               (Schedule.mkScheduleLocker (Some (Schedule.Locker_interface env))) (s, cs) in
  redis s.2 !! k = Some r ->
  (clock (Locker.lock env name lockTimeOut s).2.2 < Redis.rec_deadline r)%Z ->
  run.1 = Return None /\
  run.2.2 = cs ++ [Schedule.CLock name lockTimeOut;
                   Schedule.CLog LWarn (LogStr (Schedule.not_executed name methodName))] /\
  redis run.2.1.2 = redis s.2 /\
  Locker.lockMap run.2.1.1 = Locker.lockMap s.1.
Proof.
  intros k run Hr Hlive. subst run.
  assert ((Locker.lock env name lockTimeOut s).1 = Return false) as Hb.
  { destruct (lock_never_raises env name lockTimeOut s) as [[|] Hb]; [|exact Hb].
    apply lock_true in Hb as (_ & Hg & _). fold k in Hg.
    unfold Redis.get in Hg. rewrite Hr in Hg.
    apply Z.ltb_lt in Hlive. now rewrite Hlive in Hg. }
  destruct (lock_false env name lockTimeOut s Hb) as [Hrd Hm].
  destruct (Locker.lock env name lockTimeOut s) as [o s1] eqn:Hl. cbn [fst snd] in *. subst o.
  unfold Schedule.run, Schedule.descriptor_value, Schedule.observed_ScheduleLocker,
    Schedule.acquire, Schedule.observed_locker, Schedule.observed, Schedule.observed_logger,
    Schedule.Locker_interface, Schedule.Locker_logger.
  cbn [Schedule.locker Schedule.lock truthy orb]. js_run. rewrite Hl.
  rewrite <- app_assoc. done.
Qed.

End Guarded_on_Locker.

(** ** These properties on concrete runs *)

Section More_runs.
Import Scenario.

Lemma start_reachable : reachable env_ok (A, w0).
Proof. exists (Locker.mkOptions "app:"), 0%Z, ∅. apply rtc_refl. Defined.

(** B asks for the key that A holds. *)
Lemma lock_refused_while_held_witness :
  (Locker.lock env_ok "job" None (B, A_holds.2)).1 = Return false.
Proof.
  refine (proj1 (lock_refused_while_held env_ok "job" None (B, A_holds.2)
                   (Redis.mkRecord "000102030405060708090a0b0c0d0e0f" 100) _ _));
    vm_compute; reflexivity.
Defined.



(** 150 ms later the record of A has expired and A itself asks again. *)
Lemma lock_after_expiry_witness :
  (Locker.lock env_ok "job" (Some 100%Z) (A_holds.1, with_clock 150 A_holds.2)).1 = Return true.
Proof.
  refine (proj1 (lock_after_expiry env_ok "job" (Some 100%Z)
                   (A_holds.1, with_clock 150 A_holds.2) _ _ _ _)).
  - vm_compute. reflexivity.
  - vm_compute. reflexivity.
  - vm_compute. reflexivity.
  - intros r Hr. vm_compute in Hr. injection Hr as <-. vm_compute. discriminate.
Defined.

Lemma lock_then_unLock_witness :
  redis (Locker.unLock env_ok "job" A_holds).2.2 = delete "app:job" (redis w0).
Proof.
  refine (proj1 (proj2 (lock_then_unLock env_ok "job" (Some 100%Z) (A, w0)
                          start_reachable _ _ _ _))); vm_compute; reflexivity.
Defined.

Lemma unLock_twice_second_untracked_witness :
  (Locker.unLock env_ok "job" (Locker.unLock env_ok "job" A_holds).2).1 = Return None.
Proof.
  refine (proj1 (unLock_twice_second_untracked env_ok "job" A_holds _)).
  vm_compute. reflexivity.
Defined.

Lemma other_keys_untouched_witness :
  redis (Locker.unLock env_ok "mail" A_holds).2.2 !! "app:job" = redis A_holds.2 !! "app:job".
Proof.
  refine (proj1 (proj2 (other_keys_untouched env_ok "mail" "job" None A_holds _))).
  discriminate.
Defined.

Lemma unLock_sends_script_when_connected_witness :
  last (trace (Locker.unLock env_ok "job" A_holds).2.2)
  = Some (EvLuaUnlock "app:job" "000102030405060708090a0b0c0d0e0f").
Proof.
  refine (unLock_sends_script_when_connected env_ok "job" A_holds
            (Locker.mkEntry "000102030405060708090a0b0c0d0e0f" 100 0) 0
            A_holds_reachable _ _); vm_compute; reflexivity.
Defined.


(** B waits only 60 ms. *)
Lemma waitLock_timeout_changes_nothing_witness :
  redis (Locker.waitLock env_ok "job" (Some 100%Z) None (Some 60%Z) (B, A_holds.2)).2.2
  = redis (B, A_holds.2).2.
Proof.
  refine (proj1 (proj2 (waitLock_timeout_changes_nothing env_ok "job" (Some 100%Z) None
                          (Some 60%Z) (B, A_holds.2) _))).
  vm_compute. reflexivity.
Defined.

Lemma reachable_entries_prefixed_witness :
  exists key, "app:job" = Locker.key_prefix (Locker.options A_holds.1) +:+ key.
Proof.
  refine (proj1 (reachable_entries_prefixed env_ok A_holds "app:job"
                   (Locker.mkEntry "000102030405060708090a0b0c0d0e0f" 100 0)
                   A_holds_reachable _)).
  vm_compute. reflexivity.
Defined.

(** B runs a guarded method while A holds the lock. *)
Lemma guarded_skips_while_held_witness :
  (Schedule.run Schedule.Locker_logger "job" None None None "m" returns7
                (Schedule.mkScheduleLocker (Some (Schedule.Locker_interface env_ok)))
                ((B, A_holds.2), [])).1 = Return None.
Proof.
  refine (proj1 (guarded_skips_while_held env_ok "job" "m" None returns7 (B, A_holds.2) []
                   (Redis.mkRecord "000102030405060708090a0b0c0d0e0f" 100) _ _));
    vm_compute; reflexivity.
Defined.

(** A tick of a guarded job before the shared locker is initialised. *)
Lemma onTick_of_guarded_method_witness :
  (Schedule.onTick (Schedule.observed_logger Schedule.Locker_logger) "Jobs" "m"
     (Schedule.run Schedule.Locker_logger "job" None None None "m" returns7 not_initialised)
     ((A, w0), [])).1 = Return None.
Proof.
  pose proof (proj1 (proj2 (onTick_of_guarded_method Schedule.Locker_logger "job" None None None
                              "Jobs" "m" returns7 not_initialised (A, w0) [])) eq_refl) as H.
  exact (f_equal fst H).
Defined.

End More_runs.
